(** * Activation diffusion of [EngramNetwork3D]

    A shallow embedding of the activation-diffusion logic of
    [src/components/EngramNetwork3D.tsx]: the graph lookups, the activation
    ledger (the [activations] state of the component), the pulse list, the
    timers registered by [handleActivate] and the callbacks they run.

    Conventions.
    - JavaScript numbers that hold node ids, depths and millisecond delays
      are integers in the source and are modelled as [Z].
    - Activation levels, strengths and clock readings are modelled as exact
      rationals [Q]; [0.6] is [6#10], [0.95] is [95#100] and so on.  With
      these literals the products of the source ([1 * 0.6], [0.6 * 0.6],
      ...) evaluate to the decimal fractions [6#10], [36#100], [216#1000]
      syntactically, so the concrete results below are stated with Leibniz
      equality; universally quantified results use [==] on [Q].  The
      module [Binary64] evaluates the same products and comparisons on
      IEEE doubles, as the JavaScript engine does, for the values that the
      concrete results rely on.
    - [Map<number, number>] is a [gmap Z Q].  A React state setter called
      with an updater function is modelled as applying the updater to the
      current state at the point of the call (updaters are applied in call
      order).
    - [setTimeout] / [setInterval] / [clearInterval] are modelled by an
      explicit list of pending timers inside the state.  A timer never
      fires before its due time; the transition relation [step] lets it
      fire late and leaves the order in which pending timers are served
      open.  The deterministic runner [runBefore] serves every timer at
      its due time, timers due at the same time in creation order;
      [fireNextLate] serves every timer a fixed time late. *)

From Stdlib Require Import ZArith QArith Qminmax Qpower Lia Lqa String.
From Stdlib Require Import PrimFloat.
From stdpp Require Import gmap list.

#[local] Set Warnings "-inexact-float".

Local Open Scope Z_scope.

(** ** Data model (lines 11-24 of the source) *)

Inductive NodeType := query | concept | raw.

Definition Position : Type := (Q * Q * Q)%type.

Record EngramNode := mkNode {
  id : Z;
  position : Position;
  label : string;
  type : NodeType
}.

Record EngramEdge := mkEdge {
  source : Z;
  target : Z
}.

Record PulseWave := mkPulse {
  origin : Position;
  startTime : Q
}.

(** ** Comparisons on levels *)

(** [a > b] on numbers, as a boolean. *)
Definition Qgtb (a b : Q) : bool := negb (Qle_bool a b).

(** [a < b] on numbers, as a boolean. *)
Definition Qltb (a b : Q) : bool := Qgtb b a.

(** ** The activation ledger *)

Module Ledger.

(** [newMap.get(k) || 0]: an absent entry reads as [0]. *)
Definition levelOf (m : gmap Z Q) (k : Z) : Q := default 0%Q (m !! k).

(** The updater of lines 325-332:
    [const currentActivation = newMap.get(neighborId) || 0;
     if (transferStrength > currentActivation) newMap.set(neighborId, transferStrength);] *)
Definition setIfHigher (nodeId : Z) (level : Q) (prev : gmap Z Q) : gmap Z Q :=
  let currentActivation := levelOf prev nodeId in
  if Qgtb level currentActivation then <[nodeId := level]> prev else prev.

(** The body of [prev.forEach] (lines 353-359), acting on the two
    variables [newMap] and [hasActiveNodes] that the updater has in hand:
    [const newValue = value * 0.95;
     if (newValue > 0.05) { newMap.set(key, newValue); hasActiveNodes = true; }],
    with the factor and the floor as arguments. *)
Definition decayStep (factor floor : Q) (key : Z) (value : Q)
    (acc : gmap Z Q * bool) : gmap Z Q * bool :=
  let newValue := (value * factor)%Q in
  if Qgtb newValue floor then (<[key := newValue]> (fst acc), true) else acc.

(** The updater of the decay interval (lines 349-366): [newMap] starts
    empty, [hasActiveNodes] starts false, every entry of [prev] is visited.
    The result is the new map together with the final flag. *)
Definition decayAll (prev : gmap Z Q) : gmap Z Q * bool :=
  map_fold (decayStep (95#100) (5#100)) (∅, false) prev.

End Ledger.

(** ** The graph store (lines 275-292) *)

Record Graph := mkGraph {
  nodes : list EngramNode;
  edges : list EngramEdge
}.

(** [nodes.find(n => n.id === id)]: the first node carrying the id. *)
Definition findNode (ns : list EngramNode) (i : Z) : option EngramNode :=
  List.find (fun n => id n =? i) ns.

(** [edges.filter(e => e.source === sourceId || e.target === sourceId)] *)
Definition connectedEdges (es : list EngramEdge) (sourceId : Z) : list EngramEdge :=
  List.filter (fun e => (source e =? sourceId) || (target e =? sourceId)) es.

(** [edge.source === sourceId ? edge.target : edge.source] *)
Definition neighborOf (sourceId : Z) (edge : EngramEdge) : Z :=
  if source edge =? sourceId then target edge else source edge.

(** The check of [Edge3D] (lines 152-155): both endpoints are found. *)
Definition edgeResolves (ns : list EngramNode) (e : EngramEdge) : bool :=
  match findNode ns (source e), findNode ns (target e) with
  | Some _, Some _ => true
  | _, _ => false
  end.

Definition wellFormed (g : Graph) : bool :=
  forallb (edgeResolves (nodes g)) (edges g).

(** ** Timers and the component state *)

(** The three kinds of closures that [handleActivate] hands to the timer
    functions, with the variables they capture. *)
Inductive Callback :=
| SpreadCb (sourceId : Z) (strength : Q) (depth : Z)  (* lines 318-342 *)
| DecayCb (decayInterval : Z)                          (* lines 348-367 *)
| ClearPulsesCb.                                       (* lines 370-372 *)

(** A pending timer: [period] is [Some p] for a [setInterval] timer. *)
Record Timer := mkTimer {
  timerId : Z;
  fireAt : Z;
  period : option Z;
  callback : Callback
}.

Record World := mkWorld {
  activations : gmap Z Q;       (* useState: activations *)
  pulseWaves : list PulseWave;  (* useState: pulseWaves *)
  clockRef : Q;                 (* clockRef.current *)
  now : Z;                      (* time of the event loop, in ms *)
  timers : list Timer;          (* pending timers, in creation order *)
  nextTimerId : Z
}.

Definition initial : World :=
  mkWorld ∅ [] 0%Q 0 [] 1.

Definition setActivations (f : gmap Z Q → gmap Z Q) (w : World) : World :=
  mkWorld (f (activations w)) (pulseWaves w) (clockRef w) (now w) (timers w) (nextTimerId w).

Definition setPulseWaves (f : list PulseWave → list PulseWave) (w : World) : World :=
  mkWorld (activations w) (f (pulseWaves w)) (clockRef w) (now w) (timers w) (nextTimerId w).

(** [updateClock] (lines 376-378). *)
Definition updateClock (time : Q) (w : World) : World :=
  mkWorld (activations w) (pulseWaves w) time (now w) (timers w) (nextTimerId w).

Definition setTimers (f : list Timer → list Timer) (w : World) : World :=
  mkWorld (activations w) (pulseWaves w) (clockRef w) (now w) (f (timers w)) (nextTimerId w).

Definition setNow (t : Z) (w : World) : World :=
  mkWorld (activations w) (pulseWaves w) (clockRef w) t (timers w) (nextTimerId w).

Definition setTimeout (cb : Callback) (delay : Z) (w : World) : World :=
  mkWorld (activations w) (pulseWaves w) (clockRef w) (now w)
          (timers w ++ [mkTimer (nextTimerId w) (now w + delay) None cb])
          (nextTimerId w + 1).

(** [setInterval]: the closure may capture the id that the call returns. *)
Definition setInterval (cb : Z → Callback) (delay : Z) (w : World) : World :=
  mkWorld (activations w) (pulseWaves w) (clockRef w) (now w)
          (timers w ++ [mkTimer (nextTimerId w) (now w + delay) (Some delay) (cb (nextTimerId w))])
          (nextTimerId w + 1).

Definition clearInterval (i : Z) (w : World) : World :=
  setTimers (List.filter (fun t => negb (timerId t =? i))) w.

(** ** The diffusion engine (lines 300-373) *)

(** [spreadActivation] up to the registration of its timer (lines 315-318
    and 342): the cutoff test, then [setTimeout(..., 400 * depth)]. *)
Definition spreadActivation (sourceId : Z) (strength : Q) (depth : Z) (w : World) : World :=
  if (depth >? 3) || Qltb strength (1#10) then w
  else setTimeout (SpreadCb sourceId strength depth) (400 * depth) w.

(** The body of [connectedEdges.forEach] (lines 321-341) for one edge. *)
Definition deliver (g : Graph) (sourceId : Z) (strength : Q) (depth : Z)
    (w : World) (edge : EngramEdge) : World :=
  let neighborId := neighborOf sourceId edge in
  let transferStrength := (strength * (6#10))%Q in
  let w1 := setActivations (Ledger.setIfHigher neighborId transferStrength) w in
  let w2 :=
    match findNode (nodes g) neighborId with
    | Some neighborNode =>
        if Qgtb transferStrength (2#10)
        then setPulseWaves (fun prev => prev ++ [mkPulse (position neighborNode) (clockRef w1)]) w1
        else w1
    | None => w1
    end in
  spreadActivation neighborId transferStrength (depth + 1) w2.

(** The timer callback of [spreadActivation] (lines 318-341). *)
Definition spreadCallback (g : Graph) (sourceId : Z) (strength : Q) (depth : Z)
    (w : World) : World :=
  fold_left (deliver g sourceId strength depth) (connectedEdges (edges g) sourceId) w.

(** The interval callback (lines 348-366): sweep, and [clearInterval] when
    nothing stayed active. *)
Definition decayTick (decayInterval : Z) (w : World) : World :=
  let '(newMap, hasActiveNodes) := Ledger.decayAll (activations w) in
  let w1 := setActivations (fun _ => newMap) w in
  if hasActiveNodes then w1 else clearInterval decayInterval w1.

Definition runCallback (g : Graph) (cb : Callback) (w : World) : World :=
  match cb with
  | SpreadCb sourceId strength depth => spreadCallback g sourceId strength depth w
  | DecayCb decayInterval => decayTick decayInterval w
  | ClearPulsesCb => setPulseWaves (fun _ => []) w
  end.

(** [handleActivate] (lines 300-373). *)
Definition handleActivate (g : Graph) (i : Z) (w : World) : World :=
  match findNode (nodes g) i with
  | None => w
  | Some node =>
      let w1 := setPulseWaves (fun prev => prev ++ [mkPulse (position node) (clockRef w)]) w in
      let w2 := setActivations (fun prev => <[i := 1%Q]> prev) w1 in
      let w3 := spreadActivation i 1 1 w2 in
      let w4 := setInterval DecayCb 100 w3 in
      setTimeout ClearPulsesCb 3000 w4
  end.

(** ** The event loop *)

(** What happens to a timer's registration when it fires: a timeout is
    dropped, an interval is moved one period ahead. *)
Definition reschedule (tm : Timer) (ts : list Timer) : list Timer :=
  match period tm with
  | None => List.filter (fun t => negb (timerId t =? timerId tm)) ts
  | Some p =>
      List.map (fun t => if timerId t =? timerId tm
                         then mkTimer (timerId t) (fireAt tm + p) (period t) (callback t)
                         else t) ts
  end.

(** Firing a pending timer: time moves to its due time if that is still
    ahead (never backwards), the registration is updated and the callback
    runs. *)
Definition fire (g : Graph) (tm : Timer) (w : World) : World :=
  runCallback g (callback tm)
    (setTimers (reschedule tm) (setNow (Z.max (now w) (fireAt tm)) w)).

(** The timer that is due first; timers due at the same time are taken in
    creation order. *)
Fixpoint earliest (ts : list Timer) : option Timer :=
  match ts with
  | [] => None
  | t :: rest =>
      match earliest rest with
      | Some u => if fireAt u <? fireAt t then Some u else Some t
      | None => Some t
      end
  end.

Definition fireNext (g : Graph) (w : World) : World :=
  match earliest (timers w) with
  | Some tm => fire g tm w
  | None => w
  end.

(** Fire, in order, every timer that is due strictly before [t]. *)
Fixpoint runBefore (fuel : nat) (g : Graph) (t : Z) (w : World) : World :=
  match fuel with
  | O => w
  | S fuel' =>
      match earliest (timers w) with
      | Some tm => if fireAt tm <? t then runBefore fuel' g t (fire g tm w) else w
      | None => w
      end
  end.

(** The states passed through by [runBefore], oldest first. *)
Fixpoint traceBefore (fuel : nat) (g : Graph) (t : Z) (w : World) : list World :=
  match fuel with
  | O => [w]
  | S fuel' =>
      match earliest (timers w) with
      | Some tm => if fireAt tm <? t then w :: traceBefore fuel' g t (fire g tm w) else [w]
      | None => [w]
      end
  end.

(** The transitions of the component: a click on a node, an animation
    frame updating the clock, the passing of time, and the firing of a
    pending timer.  [setTimeout] and [setInterval] promise a minimum delay
    only: time may pass while timers are overdue, a callback then runs
    late ([fire] never runs it before its due time), and nothing is
    assumed about the order in which pending timers are served. *)
Inductive step (g : Graph) : World → World → Prop :=
| step_activate (i : Z) (w : World) :
    step g w (handleActivate g i w)
| step_clock (time : Q) (w : World) :
    step g w (updateClock time w)
| step_wait (t : Z) (w : World) :
    now w <= t →
    step g w (setNow t w)
| step_fire (tm : Timer) (w : World) :
    In tm (timers w) →
    step g w (fire g tm w).

Definition reachable (g : Graph) (w : World) : Prop := rtc (step g) initial w.

(** ** The reference configuration (lines 275-292) *)

(** The labels are display text only; the quotation marks inside the first
    one are left out. *)

Definition referenceNodes : list EngramNode :=
  [ mkNode 0 (0, 0, 0)%Q "Query: Orders Slow" query;
    mkNode 1 (-(15#10), 1, 5#10)%Q "Latency" concept;
    mkNode 2 (15#10, 1, -(5#10))%Q "DB Index" concept;
    mkNode 3 (-(2), -(5#10), 1)%Q "Timeout Error" raw;
    mkNode 4 (2, -(5#10), -(1))%Q "Index Optimization" raw;
    mkNode 5 (0, -(15#10), 0)%Q "Optimization Plan" concept ].

Definition referenceEdges : list EngramEdge :=
  [ mkEdge 0 1; mkEdge 0 2; mkEdge 1 3; mkEdge 2 4; mkEdge 4 5; mkEdge 1 2 ].

Definition referenceGraph : Graph := mkGraph referenceNodes referenceEdges.

(** * Definitions used to state the properties *)

(** Number of decay intervals currently registered. *)
Definition isDecay (t : Timer) : bool :=
  match callback t with DecayCb _ => true | _ => false end.

Definition decayLoops (w : World) : nat := length (List.filter isDecay (timers w)).

(** What a sweep does to one level: [Some] of the new level when it stays
    above the floor, [None] when the entry is dropped. *)
Definition decayEntry (factor floor value : Q) : option Q :=
  let newValue := (value * factor)%Q in
  if Qgtb newValue floor then Some newValue else None.

(** The sweep as a map operation. *)
Definition decaySweep (factor floor : Q) (prev : gmap Z Q) : gmap Z Q :=
  omap (decayEntry factor floor) prev.

(** Two ledgers with the same entries, the levels being equal as
    numbers. *)
Definition sameLevels (m1 m2 : gmap Z Q) : Prop :=
  ∀ k, (m1 !! k = None ↔ m2 !! k = None) ∧ (Ledger.levelOf m1 k == Ledger.levelOf m2 k)%Q.

(** A list of deliveries [(node, strength)], applied first to last. *)
Fixpoint deliverAll (ds : list (Z * Q)) (m : gmap Z Q) : gmap Z Q :=
  match ds with
  | [] => m
  | (n, s) :: rest => deliverAll rest (Ledger.setIfHigher n s m)
  end.

(** The deliveries made by one propagation callback. *)
Definition deliveriesOf (g : Graph) (sourceId : Z) (strength : Q) : list (Z * Q) :=
  List.map (fun e => (neighborOf sourceId e, (strength * (6#10))%Q))
           (connectedEdges (edges g) sourceId).

(** The part of the state that the timer functions read and write. *)
Definition sched (w : World) : Z * list Timer * Z :=
  (now w, timers w, nextTimerId w).

(** ** The arithmetic of the source on IEEE doubles *)

Module Binary64.

(** [strength * 0.6] (line 323). *)
Definition transferStrength (strength : float) : float :=
  PrimFloat.mul strength 0.6%float.

(** [value * 0.95] (line 354). *)
Definition newValue (value : float) : float :=
  PrimFloat.mul value 0.95%float.

(** [a > b] on doubles. *)
Definition gtb (a b : float) : bool := PrimFloat.ltb b a.

End Binary64.

(** ** Invariants of the reachable states *)

(** What every pending timer looks like: a propagation timer was created at
    depth 1, 2 or 3 and carries [0.6 ^ (depth - 1)]; a decay interval knows
    its own id and repeats every 100 ms. *)
Definition timerOk (tm : Timer) : Prop :=
  match callback tm with
  | SpreadCb _ strength depth =>
      1 <= depth <= 3 ∧ (strength == (6#10) ^ (depth - 1))%Q ∧ period tm = None
  | DecayCb i => timerId tm = i ∧ period tm = Some 100
  | ClearPulsesCb => period tm = None
  end.

Record Inv (w : World) : Prop := mkInv {
  inv_levels : ∀ k v, activations w !! k = Some v → (0 < v <= 1)%Q;
  inv_timers : ∀ tm, In tm (timers w) → timerOk tm
}.

(** Timer ids are handed out in increasing order and never reused. *)
Definition IdsOk (w : World) : Prop :=
  (∀ tm, In tm (timers w) → timerId tm < nextTimerId w) ∧
  NoDup (List.map timerId (timers w)).

(** ** Example configurations *)

(** A chain of six nodes, [0 - 1 - 2 - 3 - 4 - 5]. *)
Definition chainGraph : Graph :=
  mkGraph
    (List.map (fun i => mkNode i (0, 0, 0)%Q "" concept) [0; 1; 2; 3; 4; 5])
    [ mkEdge 0 1; mkEdge 1 2; mkEdge 2 3; mkEdge 3 4; mkEdge 4 5 ].

(** The callback that the event loop runs next. *)
Definition nextCallback (w : World) : option Callback :=
  option_map callback (earliest (timers w)).

(** The whole run of the chain after a click on node 0. *)
Definition chainRun : list World :=
  traceBefore 200 chainGraph 1000000 (handleActivate chainGraph 0 initial).

Definition hasLevel (k : Z) (w : World) : bool :=
  match activations w !! k with Some _ => true | None => false end.

Definition offers (strength : Q) (tm : Timer) : bool :=
  match callback tm with
  | SpreadCb _ s _ => Qeq_bool (s * (6#10)) strength
  | _ => false
  end.

Definition atDepth (depth : Z) (tm : Timer) : bool :=
  match callback tm with
  | SpreadCb _ _ d => d =? depth
  | _ => false
  end.

Module Scenario.

Definition G : Graph := referenceGraph.

(** The click on node 0 at time 0. *)
Definition clicked : World := handleActivate G 0 initial.

(** First wave: the propagation timer of the click is due at 400. *)
Definition beforeWave1 : World := runBefore 50 G 400 clicked.
Definition wave1 : World := fireNext G beforeWave1.

(** Second wave: the two timers created by the first wave are due at
    1200, after the decay tick of that time. *)
Definition beforeWave2 : World := fireNext G (runBefore 50 G 1200 wave1).
Definition wave2from1 : World := fireNext G beforeWave2.
Definition wave2from2 : World := fireNext G wave2from1.

(** The end of the run. *)
Definition atRest : World := runBefore 500 G 1000000 clicked.

End Scenario.

(** One node and one edge whose other endpoint does not exist. *)
Definition danglingGraph : Graph :=
  mkGraph [ mkNode 0 (0, 0, 0)%Q "only" query ] [ mkEdge 0 7 ].

Module Dangling.

Definition clicked : World := handleActivate danglingGraph 0 initial.
Definition beforeWave1 : World := runBefore 50 danglingGraph 400 clicked.
Definition wave1 : World := fireNext danglingGraph beforeWave1.
Definition beforeWave2 : World := fireNext danglingGraph (runBefore 50 danglingGraph 1200 wave1).
Definition wave2 : World := fireNext danglingGraph beforeWave2.

End Dangling.

(** * The presentation layer (lines 32-270) *)

(** The pure computations of the components that draw the state.  The
    three.js objects they write to are left out; what is modelled is the
    value each prop or mesh attribute receives. *)
Module View.

(** [activations.get(node.id) || 0] (line 249, the prop of [Node3D]). *)
Definition activationOf (acts : gmap Z Q) (node : EngramNode) : Q :=
  Ledger.levelOf acts (id node).

(** [activation > 0.1], the test of lines 44, 97, 99, 124 and 130. *)
Definition lit (activation : Q) : bool := Qgtb activation (1#10).

(** [pulseScale] (lines 44-46); [sin4t] stands for [Math.sin(t * 4)]. *)
Definition pulseScale (activation sin4t : Q) : Q :=
  if lit activation then (1 + sin4t * (15#100) * activation)%Q else 1%Q.

(** [glowScale] (line 51). *)
Definition glowScale (activation : Q) : Q := ((15#10) + activation * (15#10))%Q.

(** The opacity of the glow sphere (line 83). *)
Definition glowOpacity (activation : Q) : Q := (activation * (4#10))%Q.

(** [emissiveIntensity] of the core sphere (line 99). *)
Definition emissiveIntensity (activation : Q) : Q :=
  if lit activation then ((8#10) + activation * (5#10))%Q else (1#10)%Q.

(** What [Edge3D] hands to [Line] (lines 161-169). *)
Record EdgeLine := mkEdgeLine {
  points : Position * Position;
  color : string;
  opacity : Q;
  lineWidth : Z
}.

(** [Edge3D] (lines 149-171); [None] is the [return null] of line 155. *)
Definition Edge3D (edge : EngramEdge) (ns : list EngramNode) (acts : gmap Z Q)
    : option EdgeLine :=
  match findNode ns (source edge), findNode ns (target edge) with
  | Some sourceNode, Some targetNode =>
      let sourceActivation := Ledger.levelOf acts (source edge) in
      let targetActivation := Ledger.levelOf acts (target edge) in
      let maxActivation := Qmax sourceActivation targetActivation in
      Some (mkEdgeLine
              (position sourceNode, position targetNode)
              (if lit maxActivation then "#C5A059" else "#A8A29E")
              (if lit maxActivation then ((6#10) + maxActivation * (4#10))%Q else (15#100)%Q)
              (if lit maxActivation then 2 else 1))
  | _, _ => None
  end.

(** The state of one [PulseWave] (lines 179-213): the [visible] flag and
    the scale and material opacity last written to its mesh. *)
Record Wave := mkWave {
  visible : bool;
  scale : Q;
  materialOpacity : Q
}.

(** A wave as first rendered: shown, unit scale, opacity 0.3 (line 207). *)
Definition newWave : Wave := mkWave true 1 (3#10).

(** The [useFrame] callback of [PulseWave] (lines 183-197) at clock
    reading [t]; without a mesh (after [setVisible(false)]) it does
    nothing. *)
Definition waveFrame (startTime : Q) (wv : Wave) (t : Q) : Wave :=
  if visible wv then
    let elapsed := (t - startTime)%Q in
    let scale' := (elapsed * 3)%Q in
    let opacity' := Qmax 0 (1 - elapsed * (5#10)) in
    if Qle_bool opacity' 0 then mkWave false (scale wv) (materialOpacity wv)
    else mkWave true scale' (opacity' * (3#10))%Q
  else wv.

(** A sequence of frames. *)
Definition waveFrames (startTime : Q) (wv : Wave) (ts : list Q) : Wave :=
  fold_left (waveFrame startTime) ts wv.

End View.

(** * Definitions used to state the further properties *)

(** One sweep of the ledger, as the decay interval applies it. *)
Definition sweep (m : gmap Z Q) : gmap Z Q := fst (Ledger.decayAll m).

(** A level after [n] sweeps, when nothing raises it. *)
Definition decayedBy (n : nat) (v : Q) : Q :=
  Nat.iter n (fun x => (x * (95#100))%Q) v.

(** After [j] sweeps no entry of the ledger would be left. *)
Definition fadesWithin (j : nat) (m : gmap Z Q) : Prop :=
  ∀ k v, m !! k = Some v → (decayedBy j v <= 5#100)%Q.

(** The id belongs to a node of the graph. *)
Definition knownId (g : Graph) (k : Z) : bool :=
  match findNode (nodes g) k with Some _ => true | None => false end.

(** The pulses that a propagation callback of source [sourceId] emits,
    read at clock value [clock]: one per incident edge whose other
    endpoint is a node. *)
Definition pulsesOf (g : Graph) (clock : Q) (sourceId : Z) : list PulseWave :=
  flat_map (fun e => match findNode (nodes g) (neighborOf sourceId e) with
                     | Some neighborNode => [mkPulse (position neighborNode) clock]
                     | None => []
                     end)
           (connectedEdges (edges g) sourceId).

(** The callbacks that a propagation callback of the given depth
    registers: below depth 3 one per incident edge, none at depth 3. *)
Definition hopsOf (g : Graph) (sourceId : Z) (strength : Q) (depth : Z) : list Callback :=
  if depth <? 3
  then List.map (fun e => SpreadCb (neighborOf sourceId e) (strength * (6#10))%Q (depth + 1))
                (connectedEdges (edges g) sourceId)
  else [].

(** The event loop left to itself for [n] firings. *)
Definition fireMany (n : nat) (g : Graph) (w : World) : World :=
  Nat.iter n (fireNext g) w.

(** A bound on the number of firings that a propagation timer of the
    given depth can cause, itself included, in a graph with [E] edges. *)
Definition hopWeight (E depth : Z) : Z :=
  if 3 <=? depth then 1
  else if 2 <=? depth then 1 + E
  else 1 + E * (1 + E).

Definition timerWeight (E : Z) (tm : Timer) : Z :=
  match callback tm with
  | SpreadCb _ _ depth => 60 * hopWeight E depth
  | DecayCb _ => 1
  | ClearPulsesCb => 1
  end.

Definition timersWeight (E : Z) (ts : list Timer) : Z :=
  fold_right (fun tm acc => timerWeight E tm + acc) 0 ts.

(** A number of firings after which the event loop is at rest. *)
Definition restFuel (g : Graph) (w : World) : nat :=
  Z.to_nat (timersWeight (Z.of_nat (length (edges g))) (timers w) + 59).


(** The time from the firing of a propagation timer of the given depth
    to the firing of the last propagation that descends from it:
    [400 * 2 + 400 * 3] at depth 1, [400 * 3] at depth 2. *)
Definition remainingDelay (depth : Z) : Z :=
  if depth <=? 1 then 2000 else if depth <=? 2 then 1200 else 0.

(** The transitions other than a click. *)
Inductive idle (g : Graph) : World → World → Prop :=
| idle_clock (time : Q) (w : World) :
    idle g w (updateClock time w)
| idle_wait (t : Z) (w : World) :
    now w <= t →
    idle g w (setNow t w)
| idle_fire (tm : Timer) (w : World) :
    In tm (timers w) →
    idle g w (fire g tm w).


(** The transition from [w] to [w'] leaves no timer that was pending in [w]
    more than [L] ms past its due time: time does not pass beyond
    [fireAt u + L] while [u] waits, and [u] fires by then. *)
Definition lagWithin (L : Z) (w w' : World) : Prop :=
  ∀ u, In u (timers w) → now w' <= fireAt u + L.

(** The transitions of an event loop that serves every timer at most [L]
    ms late, with and without clicks. *)
Definition stepWithin (L : Z) (g : Graph) (w w' : World) : Prop :=
  step g w w' ∧ lagWithin L w w'.

Definition idleWithin (L : Z) (g : Graph) (w w' : World) : Prop :=
  idle g w w' ∧ lagWithin L w w'.



(** With timers served at most [L] ms late: every pending propagation
    will have run out, with its descendants, before some pending pulse
    clearing is due, and pulses are in the list only while a pulse clearing
    is pending. *)
Definition pulseInv (L : Z) (w : World) : Prop :=
  (∀ t s str d, In t (timers w) → callback t = SpreadCb s str d →
     ∃ tc, In tc (timers w) ∧ callback tc = ClearPulsesCb ∧
           fireAt t + remainingDelay d + (4 - d) * L < fireAt tc) ∧
  (pulseWaves w ≠ [] → ∃ tc, In tc (timers w) ∧ callback tc = ClearPulsesCb).

(** The event loop serving the timer that is due first (ties in creation
    order) exactly [L] ms after its due time. *)
Definition fireNextLate (L : Z) (g : Graph) (w : World) : World :=
  match earliest (timers w) with
  | Some tm => fire g tm (setNow (Z.max (now w) (fireAt tm + L)) w)
  | None => w
  end.

(** A click on node 0 of the reference graph followed by the firings of an
    event loop that runs the given number of ms late. *)
Definition lateRun (L : Z) (n : nat) : World :=
  Nat.iter n (fireNextLate L referenceGraph) (handleActivate referenceGraph 0 initial).

(** No pending timer is more than [L] ms past its due time. *)
Definition notOverdue (L : Z) (w : World) : Prop :=
  ∀ u, In u (timers w) → now w <= fireAt u + L.

(** A click on node [i] at time [t]: the timers due before [t] have
    fired, time has moved on to [t]. *)
Definition clickAt (g : Graph) (i : Z) (w : World) (t : Z) : World :=
  handleActivate g i (setNow t (runBefore 1000 g t w)).

(** Four clicks on node 0 of the reference graph, one second apart, and
    the state in which the event loop then comes to rest. *)
Definition fourClicks : World :=
  fold_left (clickAt referenceGraph 0) [0; 1000; 2000; 3000] initial.

Definition fourClicksAtRest : World :=
  runBefore 5000 referenceGraph 1000000 fourClicks.

(** * Properties *)

(** ** Comparisons *)

Lemma Qgtb_true (a b : Q) : Qgtb a b = true ↔ (b < a)%Q.
Proof.
  unfold Qgtb. rewrite negb_true_iff. split.
  - intros E. apply Qnot_le_lt. intros Hle.
    apply Qle_bool_iff in Hle. congruence.
  - intros Hlt. destruct (Qle_bool a b) eqn:E; [|reflexivity].
    apply Qle_bool_iff in E. lra.
Qed.

Lemma Qgtb_false (a b : Q) : Qgtb a b = false ↔ (a <= b)%Q.
Proof.
  unfold Qgtb. rewrite negb_false_iff. apply Qle_bool_iff.
Qed.

Lemma Qltb_true (a b : Q) : Qltb a b = true ↔ (a < b)%Q.
Proof. apply Qgtb_true. Qed.

Lemma Qltb_false (a b : Q) : Qltb a b = false ↔ (b <= a)%Q.
Proof. apply Qgtb_false. Qed.

(** ** The ledger *)

Section LedgerFacts.
Import Ledger.

Implicit Types (m : gmap Z Q) (n k : Z) (s : Q).

Lemma levelOf_insert n s m : levelOf (<[n := s]> m) n = s.
Proof. unfold levelOf. by rewrite lookup_insert_eq. Qed.

Lemma levelOf_insert_ne n k s m : n ≠ k → levelOf (<[n := s]> m) k = levelOf m k.
Proof. intros. unfold levelOf. by rewrite lookup_insert_ne. Qed.

Lemma setIfHigher_installs n s m :
  (levelOf m n < s)%Q → setIfHigher n s m = <[n := s]> m.
Proof.
  intros H. unfold setIfHigher.
  apply Qgtb_true in H. by rewrite H.
Qed.

Lemma setIfHigher_keeps n s m :
  (s <= levelOf m n)%Q → setIfHigher n s m = m.
Proof.
  intros H. unfold setIfHigher.
  apply Qgtb_false in H. by rewrite H.
Qed.

Lemma setIfHigher_lookup_ne n k s m :
  n ≠ k → setIfHigher n s m !! k = m !! k.
Proof.
  intros Hne. unfold setIfHigher.
  destruct (Qgtb s (levelOf m n)); [by rewrite lookup_insert_ne | done].
Qed.

Lemma levelOf_setIfHigher_ne n k s m :
  n ≠ k → levelOf (setIfHigher n s m) k = levelOf m k.
Proof. intros. unfold levelOf. by rewrite setIfHigher_lookup_ne. Qed.

Lemma levelOf_setIfHigher n s m :
  (levelOf (setIfHigher n s m) n == Qmax (levelOf m n) s)%Q.
Proof.
  destruct (Qlt_le_dec (levelOf m n) s) as [Hlt|Hle].
  - rewrite setIfHigher_installs, levelOf_insert by done.
    symmetry. apply Q.max_r. lra.
  - rewrite setIfHigher_keeps by done.
    symmetry. by apply Q.max_l.
Qed.

Lemma setIfHigher_never_lowers n k s m :
  (levelOf m k <= levelOf (setIfHigher n s m) k)%Q.
Proof.
  destruct (decide (n = k)) as [->|Hne].
  - rewrite levelOf_setIfHigher. apply Q.le_max_l.
  - rewrite levelOf_setIfHigher_ne by done. lra.
Qed.

End LedgerFacts.

Section DecayFacts.
Import Ledger.

Lemma decayEntry_Some factor floor v v' :
  decayEntry factor floor v = Some v' ↔ v' = (v * factor)%Q ∧ (floor < v * factor)%Q.
Proof.
  unfold decayEntry.
  destruct (Qgtb (v * factor) floor) eqn:E.
  - apply Qgtb_true in E. split; [intros [= <-]; done | intros [-> _]; done].
  - apply Qgtb_false in E. split; [done | intros [_ H]; lra].
Qed.

Lemma decayEntry_None factor floor v :
  decayEntry factor floor v = None ↔ (v * factor <= floor)%Q.
Proof.
  unfold decayEntry.
  destruct (Qgtb (v * factor) floor) eqn:E.
  - apply Qgtb_true in E. split; [done | intros; lra].
  - apply Qgtb_false in E. done.
Qed.

Lemma lookup_decaySweep factor floor (m : gmap Z Q) (k : Z) :
  decaySweep factor floor m !! k = m !! k ≫= decayEntry factor floor.
Proof. unfold decaySweep. apply lookup_omap. Qed.

(** The loop of the updater computes the sweep, and its flag tells whether
    the new map has an entry. *)
Lemma decayAll_unfold (prev : gmap Z Q) :
  decayAll prev =
  (decaySweep (95#100) (5#100) prev,
   negb (bool_decide (decaySweep (95#100) (5#100) prev = ∅))).
Proof.
  unfold decayAll, decaySweep.
  refine (map_fold_weak_ind
            (λ r m, r = (omap (decayEntry (95#100) (5#100)) m,
                         negb (bool_decide (omap (decayEntry (95#100) (5#100)) m = ∅))))
            _ _ _ _ prev).
  - rewrite omap_empty. by rewrite bool_decide_eq_true_2.
  - intros i x m r Hnone ->. rewrite omap_insert. unfold decayStep. cbn [fst].
    assert (decayEntry (95#100) (5#100) x =
            if Qgtb (x * (95#100)) (5#100) then Some (x * (95#100))%Q else None) as ->
      by reflexivity.
    destruct (Qgtb (x * (95#100)) (5#100)).
    + f_equal. rewrite bool_decide_eq_false_2; [done | apply insert_non_empty].
    + rewrite delete_id by (by rewrite lookup_omap, Hnone). done.
Qed.

Lemma decayAll_flag_false (prev : gmap Z Q) :
  snd (decayAll prev) = false ↔ fst (decayAll prev) = ∅.
Proof.
  rewrite decayAll_unfold. cbn [fst snd].
  rewrite negb_false_iff. apply bool_decide_eq_true.
Qed.

End DecayFacts.

(** ** Invariants of the reachable states *)

Lemma strength_at_depth (depth : Z) (strength : Q) :
  1 <= depth <= 3 → (strength == (6#10) ^ (depth - 1))%Q →
  (depth = 1 ∧ (strength * (6#10) == 6#10)%Q) ∨
  (depth = 2 ∧ (strength * (6#10) == 36#100)%Q) ∨
  (depth = 3 ∧ (strength * (6#10) == 216#1000)%Q).
Proof.
  intros Hd Hs.
  assert (depth = 1 ∨ depth = 2 ∨ depth = 3) as [-> | [-> | ->]] by lia.
  - left. split; [done|]. rewrite Hs. reflexivity.
  - right; left. split; [done|]. rewrite Hs. reflexivity.
  - right; right. split; [done|]. rewrite Hs. reflexivity.
Qed.

Lemma strength_next (depth : Z) (strength : Q) :
  1 <= depth <= 3 → (strength == (6#10) ^ (depth - 1))%Q →
  (0 < strength * (6#10) <= 1)%Q ∧
  (strength * (6#10) == (6#10) ^ (depth + 1 - 1))%Q.
Proof.
  intros Hd Hs.
  assert (depth = 1 ∨ depth = 2 ∨ depth = 3) as [-> | [-> | ->]] by lia;
    rewrite Hs; split; try reflexivity; split; reflexivity || discriminate.
Qed.

(** *** Frame lemmas for the engine *)

Lemma spreadActivation_cases (sourceId : Z) (strength : Q) (depth : Z) (w : World) :
  ((3 < depth ∨ (strength < 1#10)%Q) ∧ spreadActivation sourceId strength depth w = w) ∨
  (depth <= 3 ∧ (1#10 <= strength)%Q ∧
   spreadActivation sourceId strength depth w =
     setTimeout (SpreadCb sourceId strength depth) (400 * depth) w).
Proof.
  unfold spreadActivation.
  destruct (depth >? 3) eqn:Ed; simpl.
  - left. split; [left; lia | done].
  - destruct (Qltb strength (1#10)) eqn:Es.
    + left. apply Qltb_true in Es. split; [by right | done].
    + right. apply Qltb_false in Es. split; [lia | done].
Qed.

Lemma spreadActivation_activations s str d w :
  activations (spreadActivation s str d w) = activations w.
Proof. destruct (spreadActivation_cases s str d w) as [[_ ->]|(_ & _ & ->)]; done. Qed.

Lemma spreadActivation_pulseWaves s str d w :
  pulseWaves (spreadActivation s str d w) = pulseWaves w.
Proof. destruct (spreadActivation_cases s str d w) as [[_ ->]|(_ & _ & ->)]; done. Qed.

Lemma spreadActivation_clockRef s str d w :
  clockRef (spreadActivation s str d w) = clockRef w.
Proof. destruct (spreadActivation_cases s str d w) as [[_ ->]|(_ & _ & ->)]; done. Qed.

Lemma spreadActivation_now s str d w :
  now (spreadActivation s str d w) = now w.
Proof. destruct (spreadActivation_cases s str d w) as [[_ ->]|(_ & _ & ->)]; done. Qed.

Lemma spreadActivation_timers_in s str d w tm :
  In tm (timers (spreadActivation s str d w)) →
  In tm (timers w) ∨
  (tm = mkTimer (nextTimerId w) (now w + 400 * d) None (SpreadCb s str d) ∧ d <= 3 ∧ (1#10 <= str)%Q).
Proof.
  destruct (spreadActivation_cases s str d w) as [[_ ->]|(Hd & Hs & ->)]; [by left|].
  simpl. rewrite in_app_iff. simpl. intros [H|[<-|[]]]; [by left | by right].
Qed.

Lemma spreadActivation_timers_keep s str d w tm :
  In tm (timers w) → In tm (timers (spreadActivation s str d w)).
Proof.
  destruct (spreadActivation_cases s str d w) as [[_ ->]|(Hd & Hs & ->)]; [done|].
  simpl. rewrite in_app_iff. by left.
Qed.

Lemma deliver_activations g s str d w e :
  activations (deliver g s str d w e) =
  Ledger.setIfHigher (neighborOf s e) (str * (6#10))%Q (activations w).
Proof.
  unfold deliver. rewrite spreadActivation_activations.
  destruct (findNode _ _); [destruct (Qgtb _ _)|]; done.
Qed.

Lemma deliver_timers_in g s str d w e tm :
  In tm (timers (deliver g s str d w e)) →
  In tm (timers w) ∨
  (callback tm = SpreadCb (neighborOf s e) (str * (6#10))%Q (d + 1) ∧
   period tm = None ∧ d + 1 <= 3).
Proof.
  unfold deliver. intros H.
  apply spreadActivation_timers_in in H as [H|(-> & Hd & _)].
  - left. destruct (findNode _ _); [destruct (Qgtb _ _)|]; done.
  - right. done.
Qed.

Lemma deliver_timers_keep g s str d w e tm :
  In tm (timers w) → In tm (timers (deliver g s str d w e)).
Proof.
  intros H. unfold deliver. apply spreadActivation_timers_keep.
  destruct (findNode _ _); [destruct (Qgtb _ _)|]; done.
Qed.

(** *** Preservation *)

Lemma Inv_initial : Inv initial.
Proof. split; [intros k v H; simpl in H; by rewrite lookup_empty in H | intros tm []]. Qed.

Lemma Inv_deliver g s str d w e :
  1 <= d <= 3 → (str == (6#10) ^ (d - 1))%Q → Inv w → Inv (deliver g s str d w e).
Proof.
  intros Hd Hs [Hl Ht].
  destruct (strength_next d str Hd Hs) as [Hrange Hpow].
  split.
  - intros k v. rewrite deliver_activations. unfold Ledger.setIfHigher.
    destruct (Qgtb _ _); [|by apply Hl].
    destruct (decide (neighborOf s e = k)) as [->|Hne].
    + rewrite lookup_insert_eq. by intros [= <-].
    + rewrite lookup_insert_ne by done. apply Hl.
  - intros tm Hin. apply deliver_timers_in in Hin as [Hin|(Hcb & Hp & Hd')].
    + by apply Ht.
    + unfold timerOk. rewrite Hcb. repeat split; [lia | lia | done | done].
Qed.

Lemma Inv_spreadCallback g s str d w :
  1 <= d <= 3 → (str == (6#10) ^ (d - 1))%Q → Inv w → Inv (spreadCallback g s str d w).
Proof.
  intros Hd Hs. unfold spreadCallback.
  generalize (connectedEdges (edges g) s) as es.
  intros es. revert w.
  induction es as [|e es IH]; intros w Hw; simpl; [done|].
  apply IH. by apply Inv_deliver.
Qed.

Lemma decayTick_activations i w :
  activations (decayTick i w) = fst (Ledger.decayAll (activations w)).
Proof.
  unfold decayTick. destruct (Ledger.decayAll _) as [newMap []]; done.
Qed.

Lemma decayTick_timers i w :
  timers (decayTick i w) =
  if snd (Ledger.decayAll (activations w))
  then timers w
  else List.filter (fun t => negb (timerId t =? i)) (timers w).
Proof.
  unfold decayTick. destruct (Ledger.decayAll _) as [newMap []]; done.
Qed.

Lemma decayTick_pulseWaves i w : pulseWaves (decayTick i w) = pulseWaves w.
Proof.
  unfold decayTick. destruct (Ledger.decayAll _) as [newMap []]; done.
Qed.

Lemma decayTick_nextTimerId i w : nextTimerId (decayTick i w) = nextTimerId w.
Proof.
  unfold decayTick. destruct (Ledger.decayAll _) as [newMap []]; done.
Qed.

Lemma Inv_decayTick i w : Inv w → Inv (decayTick i w).
Proof.
  intros [Hl Ht]. split.
  - intros k v. rewrite decayTick_activations, decayAll_unfold. cbn [fst].
    rewrite lookup_decaySweep.
    destruct (activations w !! k) as [v0|] eqn:E; simpl; [|done].
    intros [-> Hfloor]%decayEntry_Some.
    apply Hl in E. lra.
  - intros tm. rewrite decayTick_timers.
    destruct (snd _); [apply Ht|].
    intros [Hin _]%filter_In. by apply Ht.
Qed.

Lemma timerOk_reschedule tm ts :
  (∀ t, In t ts → timerOk t) → ∀ t, In t (reschedule tm ts) → timerOk t.
Proof.
  intros Hts t. unfold reschedule.
  destruct (period tm) as [p|].
  - intros (t0 & <- & Hin)%in_map_iff.
    specialize (Hts t0 Hin).
    destruct (timerId t0 =? timerId tm); done.
  - intros [Hin _]%filter_In. by apply Hts.
Qed.

Lemma Inv_fire g tm w : In tm (timers w) → Inv w → Inv (fire g tm w).
Proof.
  intros Hin [Hl Ht].
  pose proof (Ht tm Hin) as Hok.
  assert (Inv (setTimers (reschedule tm) (setNow (Z.max (now w) (fireAt tm)) w))) as Hw1.
  { split; [done|]. simpl. by apply timerOk_reschedule. }
  unfold fire, timerOk in *.
  destruct (callback tm) as [s str d|i|]; simpl.
  - destruct Hok as (Hd & Hs & _). by apply Inv_spreadCallback.
  - by apply Inv_decayTick.
  - destruct Hw1 as [Hl1 Ht1]. split; done.
Qed.

Lemma handleActivate_unknown g i w :
  findNode (nodes g) i = None → handleActivate g i w = w.
Proof. intros H. unfold handleActivate. by rewrite H. Qed.

Lemma handleActivate_activations g i w node :
  findNode (nodes g) i = Some node →
  activations (handleActivate g i w) = <[i := 1%Q]> (activations w).
Proof.
  intros H. unfold handleActivate. rewrite H.
  unfold setTimeout, setInterval. cbn [activations].
  by rewrite spreadActivation_activations.
Qed.

Lemma handleActivate_pulseWaves g i w node :
  findNode (nodes g) i = Some node →
  pulseWaves (handleActivate g i w) =
  pulseWaves w ++ [mkPulse (position node) (clockRef w)].
Proof.
  intros H. unfold handleActivate. rewrite H.
  unfold setTimeout, setInterval. cbn [pulseWaves].
  by rewrite spreadActivation_pulseWaves.
Qed.

Lemma handleActivate_timers g i w node :
  findNode (nodes g) i = Some node →
  ∃ spreadId decayId clearId,
    timers (handleActivate g i w) =
    timers w ++ [mkTimer spreadId (now w + 400) None (SpreadCb i 1 1);
                 mkTimer decayId (now w + 100) (Some 100) (DecayCb decayId);
                 mkTimer clearId (now w + 3000) None ClearPulsesCb].
Proof.
  intros H. unfold handleActivate. rewrite H.
  unfold setTimeout, setInterval. cbn [timers].
  rewrite spreadActivation_now.
  destruct (spreadActivation_cases i 1 1
              (setActivations (λ prev, <[i:=1%Q]> prev)
                 (setPulseWaves (λ prev, prev ++ [mkPulse (position node) (clockRef w)]) w)))
    as [[[Hd|Hs] _]|(_ & _ & ->)]; [lia | lra |].
  simpl. eexists _, _, _. rewrite <- !app_assoc. simpl. reflexivity.
Qed.

Lemma Inv_handleActivate g i w : Inv w → Inv (handleActivate g i w).
Proof.
  intros [Hl Ht].
  destruct (findNode (nodes g) i) as [node|] eqn:E;
    [|by rewrite handleActivate_unknown].
  split.
  - rewrite (handleActivate_activations _ _ _ _ E).
    intros k v. destruct (decide (i = k)) as [->|Hne].
    + rewrite lookup_insert_eq. intros [= <-]. lra.
    + rewrite lookup_insert_ne by done. apply Hl.
  - destruct (handleActivate_timers g i w node E) as (a & b & c & ->).
    intros tm. rewrite in_app_iff. simpl.
    intros [Hin|[<-|[<-|[<-|[]]]]]; [by apply Ht | | done | done].
    unfold timerOk. simpl. repeat split; lia || reflexivity.
Qed.

Lemma Inv_step g w w' : step g w w' → Inv w → Inv w'.
Proof.
  destruct 1 as [i w|time w|t w _|tm w Hin]; intros Hw.
  - by apply Inv_handleActivate.
  - destruct Hw; split; done.
  - destruct Hw; split; done.
  - by apply Inv_fire.
Qed.

Lemma Inv_reachable g w : reachable g w → Inv w.
Proof.
  unfold reachable. intros H.
  eapply (rtc_ind_r (λ w, Inv w)); [apply Inv_initial | | exact H].
  intros y z _ Hstep IH. by eapply Inv_step.
Qed.

Lemma reachable_activate g i w : reachable g w → reachable g (handleActivate g i w).
Proof. intros H. eapply rtc_r; [exact H | apply step_activate]. Qed.

Lemma reachable_fire g tm w :
  reachable g w → In tm (timers w) → reachable g (fire g tm w).
Proof. intros H Hin. eapply rtc_r; [exact H | by apply step_fire]. Qed.

(** *** The runner follows the transition relation *)

Lemma earliest_due ts tm :
  earliest ts = Some tm → In tm ts ∧ ∀ u, In u ts → fireAt tm <= fireAt u.
Proof.
  revert tm. induction ts as [|t ts IH]; intros tm; simpl; [done|].
  destruct (earliest ts) as [u|] eqn:E.
  - destruct (IH u eq_refl) as [Hin Hmin].
    destruct (fireAt u <? fireAt t) eqn:Hlt; intros [= <-].
    + split; [by right|]. intros x [<-|Hx]; [lia | by apply Hmin].
    + split; [by left|]. intros x [<-|Hx]; [lia|].
      specialize (Hmin x Hx). lia.
  - intros [= <-]. split; [by left|].
    intros x [<-|Hx]; [lia|]. destruct ts; [done | simpl in E].
    destruct (earliest ts); [destruct (_ <? _)|]; done.
Qed.

Lemma reachable_fireNext g w : reachable g w → reachable g (fireNext g w).
Proof.
  intros H. unfold fireNext.
  destruct (earliest (timers w)) as [tm|] eqn:E; [|done].
  destruct (earliest_due _ _ E) as [Hin _]. by apply reachable_fire.
Qed.

Lemma reachable_runBefore fuel g t w : reachable g w → reachable g (runBefore fuel g t w).
Proof.
  revert w. induction fuel as [|fuel IH]; intros w H; simpl; [done|].
  destruct (earliest (timers w)) as [tm|] eqn:E; [|done].
  destruct (fireAt tm <? t); [|done].
  destruct (earliest_due _ _ E) as [Hin _]. by apply IH, reachable_fire.
Qed.

Lemma reachable_fire_due g tm w :
  reachable g w → In tm (timers w) →
  forallb (fun u => fireAt tm <=? fireAt u) (timers w) = true →
  reachable g (fire g tm w).
Proof.
  intros H Hin _. by apply reachable_fire.
Qed.

Lemma reachable_clicked g i : reachable g (handleActivate g i initial).
Proof. apply reachable_activate, rtc_refl. Qed.

Lemma reachable_traceBefore fuel g t w :
  reachable g w → Forall (reachable g) (traceBefore fuel g t w).
Proof.
  revert w. induction fuel as [|fuel IH]; intros w H; simpl; [by constructor|].
  destruct (earliest (timers w)) as [tm|] eqn:E; [|by constructor].
  destruct (fireAt tm <? t); [|by constructor].
  destruct (earliest_due _ _ E) as [Hin _].
  constructor; [done|]. by apply IH, reachable_fire.
Qed.

Lemma Scenario_reachable :
  reachable Scenario.G Scenario.clicked ∧
  reachable Scenario.G Scenario.beforeWave1 ∧
  reachable Scenario.G Scenario.wave1 ∧
  reachable Scenario.G Scenario.beforeWave2 ∧
  reachable Scenario.G Scenario.wave2from1 ∧
  reachable Scenario.G Scenario.wave2from2 ∧
  reachable Scenario.G Scenario.atRest.
Proof.
  pose proof (reachable_clicked Scenario.G 0) as H0.
  pose proof (reachable_runBefore 50 Scenario.G 400 _ H0) as H1.
  pose proof (reachable_fireNext Scenario.G _ H1) as H2.
  pose proof (reachable_fireNext Scenario.G _
                (reachable_runBefore 50 Scenario.G 1200 _ H2)) as H3.
  pose proof (reachable_fireNext Scenario.G _ H3) as H4.
  pose proof (reachable_fireNext Scenario.G _ H4) as H5.
  pose proof (reachable_runBefore 500 Scenario.G 1000000 _ H0) as H6.
  exact (conj H0 (conj H1 (conj H2 (conj H3 (conj H4 (conj H5 H6)))))).
Qed.

Lemma Dangling_reachable :
  reachable danglingGraph Dangling.wave1 ∧ reachable danglingGraph Dangling.wave2.
Proof.
  pose proof (reachable_clicked danglingGraph 0) as H0.
  pose proof (reachable_fireNext danglingGraph _
                (reachable_runBefore 50 danglingGraph 400 _ H0)) as H1.
  pose proof (reachable_fireNext danglingGraph _
                (reachable_fireNext danglingGraph _
                   (reachable_runBefore 50 danglingGraph 1200 _ H1))) as H2.
  exact (conj H1 H2).
Qed.

(** ** Merge-max (claim C1) *)

Section MergeMax.
Import Ledger.

(** A node that already stands above both arrivals keeps its level: in the
    reachable ledger right after a click on node 1 (level 1), the offers
    [0.36 < 0.6] to node 1, in either order, leave it at 1, which is not
    [max 0.36 0.6]; so the final level of a node is not always the maximum
    of the two strengths. *)
Lemma C1_prior_level_counterexample :
  let m := activations (handleActivate referenceGraph 1 initial) in
  reachable referenceGraph (handleActivate referenceGraph 1 initial) ∧
  (36#100 < 6#10)%Q ∧
  (levelOf (setIfHigher 1 (6#10) (setIfHigher 1 (36#100) m)) 1 == 1)%Q ∧
  (levelOf (setIfHigher 1 (36#100) (setIfHigher 1 (6#10) m)) 1 == 1)%Q ∧
  ¬ (1 == Qmax (36#100) (6#10))%Q ∧
  ¬ (∀ (m : gmap Z Q) (n : Z) (s1 s2 : Q),
       (s1 < s2)%Q →
       (levelOf (setIfHigher n s2 (setIfHigher n s1 m)) n == Qmax s1 s2)%Q).
Proof.
  intros m.
  assert (levelOf (setIfHigher 1 (6#10) (setIfHigher 1 (36#100) m)) 1 == 1)%Q as H1
    by (vm_compute; reflexivity).
  assert (¬ (1 == Qmax (36#100) (6#10))%Q) as Hne.
  { rewrite Q.max_r by (vm_compute; discriminate). vm_compute. discriminate. }
  split; [apply reachable_clicked|].
  split; [reflexivity|].
  split; [exact H1|].
  split; [vm_compute; reflexivity|].
  split; [exact Hne|].
  intros H. apply Hne. rewrite <- H1. apply H. reflexivity.
Qed.

(** C1 (amended).  [setIfHigher n level] installs [level] exactly when it
    exceeds what the ledger reads for [n] (an absent entry reads as 0), so
    it installs only when there is no entry or the entry is strictly
    lower.  For two arrivals [s1 < s2] at node [n], in either order, the
    level of [n] ends as the maximum of the prior level and [max s1 s2]:
    when the prior level is below [s2] (in particular for a node without
    entry and a positive [s2]) the entry ends as [s2 = max s1 s2] in both
    orders; when the prior level is at least [s2] the ledger is left as it
    was; and the weaker arrival never lowers any level. *)
Theorem C1_setIfHigher_monotonic_merge (m : gmap Z Q) (n : Z) (s1 s2 : Q) :
  (s1 < s2)%Q →
  (∀ level,
      (m !! n = None → (0 < level)%Q → setIfHigher n level m = <[n := level]> m) ∧
      (m !! n = None → (level <= 0)%Q → setIfHigher n level m = m) ∧
      (∀ e, m !! n = Some e → (e < level)%Q → setIfHigher n level m = <[n := level]> m) ∧
      (∀ e, m !! n = Some e → (level <= e)%Q → setIfHigher n level m = m)) ∧
  (levelOf (setIfHigher n s2 (setIfHigher n s1 m)) n == Qmax (levelOf m n) (Qmax s1 s2))%Q ∧
  (levelOf (setIfHigher n s1 (setIfHigher n s2 m)) n == Qmax (levelOf m n) (Qmax s1 s2))%Q ∧
  ((levelOf m n < s2)%Q →
     setIfHigher n s2 (setIfHigher n s1 m) !! n = Some s2 ∧
     setIfHigher n s1 (setIfHigher n s2 m) !! n = Some s2 ∧
     (Qmax s1 s2 == s2)%Q) ∧
  ((s2 <= levelOf m n)%Q →
     setIfHigher n s2 (setIfHigher n s1 m) = m ∧
     setIfHigher n s1 (setIfHigher n s2 m) = m) ∧
  (∀ k, (levelOf (setIfHigher n s2 m) k <= levelOf (setIfHigher n s1 (setIfHigher n s2 m)) k)%Q).
Proof.
  intros Hlt.
  split; [|split; [|split; [|split; [|split]]]].
  - intros level. repeat split.
    + intros E H. apply setIfHigher_installs. unfold levelOf. by rewrite E.
    + intros E H. apply setIfHigher_keeps. unfold levelOf. by rewrite E.
    + intros e E H. apply setIfHigher_installs. unfold levelOf. by rewrite E.
    + intros e E H. apply setIfHigher_keeps. unfold levelOf. by rewrite E.
  - rewrite !levelOf_setIfHigher. rewrite <- Q.max_assoc. reflexivity.
  - rewrite !levelOf_setIfHigher. rewrite <- Q.max_assoc.
    rewrite (Q.max_comm s2 s1). reflexivity.
  - intros Hprior. split; [|split].
    + destruct (Qlt_le_dec (levelOf m n) s1) as [H1|H1].
      * rewrite (setIfHigher_installs n s1 m) by done.
        rewrite setIfHigher_installs by (rewrite levelOf_insert; done).
        by rewrite lookup_insert_eq.
      * rewrite (setIfHigher_keeps n s1 m) by done.
        rewrite setIfHigher_installs by done.
        by rewrite lookup_insert_eq.
    + rewrite (setIfHigher_installs n s2 m) by done.
      rewrite setIfHigher_keeps by (rewrite levelOf_insert; lra).
      by rewrite lookup_insert_eq.
    + apply Q.max_r. lra.
  - intros Hprior. split.
    + rewrite (setIfHigher_keeps n s1 m) by lra. by apply setIfHigher_keeps.
    + rewrite (setIfHigher_keeps n s2 m) by done. apply setIfHigher_keeps. lra.
  - intros k. apply setIfHigher_never_lowers.
Qed.

Lemma C1_setIfHigher_monotonic_merge_witness :
  setIfHigher 2 (6#10) (setIfHigher 2 (36#100) ∅) !! 2 = Some (6#10)%Q ∧
  setIfHigher 2 (36#100) (setIfHigher 2 (6#10) ∅) !! 2 = Some (6#10)%Q.
Proof.
  destruct (C1_setIfHigher_monotonic_merge ∅ 2 (36#100) (6#10) eq_refl)
    as (_ & _ & _ & H & _).
  destruct (H eq_refl) as (Ha & Hb & _).
  split; [exact Ha | exact Hb].
Defined.

End MergeMax.

(** ** Activation (claim C3) *)

(** C3.  For a node [i] that the graph knows, [handleActivate i] leaves the
    ledger with [i] at level 1 and appends exactly one pulse, at the
    position of the node found for [i] and stamped with the current value
    of the engine clock; this holds in the state right after the call:
    time has not moved and every timer the call registered is due
    strictly later. *)
Theorem C3_activate_seeds_ledger_and_pulse
    (g : Graph) (i : Z) (node : EngramNode) (w : World) :
  findNode (nodes g) i = Some node →
  In node (nodes g) ∧ id node = i ∧
  activations (handleActivate g i w) !! i = Some 1%Q ∧
  pulseWaves (handleActivate g i w) =
    pulseWaves w ++ [mkPulse (position node) (clockRef w)] ∧
  now (handleActivate g i w) = now w ∧
  (∀ tm, In tm (timers (handleActivate g i w)) →
         In tm (timers w) ∨ now w < fireAt tm).
Proof.
  intros H.
  destruct (find_some _ _ H) as [Hin Hid].
  split; [done|]. split; [lia|].
  rewrite (handleActivate_activations _ _ _ _ H), lookup_insert_eq.
  rewrite (handleActivate_pulseWaves _ _ _ _ H).
  repeat split.
  - unfold handleActivate. rewrite H.
    unfold setTimeout, setInterval. cbn [now].
    by rewrite spreadActivation_now.
  - destruct (handleActivate_timers g i w node H) as (a & b & c & ->).
    intros tm. rewrite in_app_iff. simpl.
    intros [Hin'|[<-|[<-|[<-|[]]]]]; [by left | right; simpl; lia ..].
Qed.

Lemma C3_activate_seeds_ledger_and_pulse_witness :
  activations (handleActivate referenceGraph 3 initial) !! 3 = Some 1%Q ∧
  pulseWaves (handleActivate referenceGraph 3 initial) =
    [mkPulse (-(2), -(5#10), 1)%Q 0%Q].
Proof.
  destruct (C3_activate_seeds_ledger_and_pulse referenceGraph 3
              (mkNode 3 (-(2), -(5#10), 1)%Q "Timeout Error" raw) initial eq_refl)
    as (_ & _ & Ha & Hp & _).
  split; [exact Ha | exact Hp].
Defined.

(** ** Decay (claim C4) *)

(** C4.  In every reachable state, the sweep [decayAll] (factor 0.95, floor
    0.05) turns each entry [v] into [v * 0.95], which is strictly lower;
    the entry is kept when the new level is above 0.05 and is removed when
    it is at or below 0.05; nothing is added.  When a decay interval fires
    it installs the swept ledger; if the sweep left the ledger empty the
    interval is cleared (no timer with its id stays registered), otherwise
    it is registered again 100 ms after its due time. *)
Theorem C4_decay_sweep_and_loop (g : Graph) (w : World) :
  reachable g w →
  let newMap := fst (Ledger.decayAll (activations w)) in
  let active := snd (Ledger.decayAll (activations w)) in
  (∀ k v, activations w !! k = Some v →
     (v * (95#100) < v)%Q ∧
     ((5#100 < v * (95#100))%Q → newMap !! k = Some (v * (95#100))%Q) ∧
     ((v * (95#100) <= 5#100)%Q → newMap !! k = None)) ∧
  (∀ k, activations w !! k = None → newMap !! k = None) ∧
  (active = false ↔ newMap = ∅) ∧
  (∀ tm i, In tm (timers w) → callback tm = DecayCb i →
     activations (fire g tm w) = newMap ∧
     (active = true →
        In (mkTimer i (fireAt tm + 100) (Some 100) (DecayCb i)) (timers (fire g tm w))) ∧
     (active = false →
        ∀ u, In u (timers (fire g tm w)) → timerId u ≠ i)).
Proof.
  intros Hreach newMap active.
  destruct (Inv_reachable g w Hreach) as [Hl Ht].
  subst newMap active. rewrite decayAll_unfold. cbn [fst snd].
  split; [|split; [|split]].
  - intros k v E. pose proof (Hl k v E) as Hv.
    split; [lra|]. rewrite lookup_decaySweep, E. simpl.
    split; intros H.
    + apply decayEntry_Some. done.
    + by apply decayEntry_None.
  - intros k E. by rewrite lookup_decaySweep, E.
  - rewrite negb_false_iff. apply bool_decide_eq_true.
  - intros tm i Hin Hcb.
    pose proof (Ht tm Hin) as Hok. unfold timerOk in Hok.
    rewrite Hcb in Hok. destruct Hok as [Hid Hper].
    unfold fire. rewrite Hcb. cbn [runCallback].
    rewrite decayTick_activations, decayTick_timers.
    cbn [activations timers setTimers setNow].
    rewrite decayAll_unfold. cbn [fst snd].
    split; [done|]. split; intros ->.
    + unfold reschedule. rewrite Hper. apply in_map_iff.
      exists tm. split; [|done].
      rewrite Z.eqb_refl, Hid, Hper, Hcb. done.
    + intros u [_ Hu]%filter_In. apply negb_true_iff in Hu. lia.
Qed.

Lemma C4_decay_sweep_and_loop_witness :
  fst (Ledger.decayAll (activations (handleActivate referenceGraph 0 initial))) !! 0
  = Some (1 * (95#100))%Q.
Proof.
  destruct (C4_decay_sweep_and_loop referenceGraph
              (handleActivate referenceGraph 0 initial)
              (reachable_activate referenceGraph 0 initial (rtc_refl _ _)))
    as (H & _).
  destruct (H 0 1%Q eq_refl) as (_ & Hkeep & _).
  exact (Hkeep eq_refl).
Defined.

(** ** Cutoffs (claim C2) *)

(** On the chain, the run after a click on node 0 (all of its states are
    reachable) comes to rest (no timer is left); node 3 is reached by the
    third hop, but node 4, four hops away, never gets a level: no timer is
    ever created at depth 4 and the strength 0.1296 is never offered,
    although it is not below 0.1. *)
Lemma C2_depth4_hop_counterexample :
  ¬ (Qltb (1296#10000) (1#10) = true) ∧
  Forall (reachable chainGraph) chainRun ∧
  timers (List.last chainRun initial) = [] ∧
  existsb (hasLevel 3) chainRun = true ∧
  forallb (fun w => negb (hasLevel 4 w)) chainRun = true ∧
  forallb (fun w => forallb (fun tm => negb (atDepth 4 tm) && negb (offers (1296#10000) tm))
                            (timers w)) chainRun = true ∧
  (∀ w, spreadActivation 3 (216#1000) 4 w = w).
Proof.
  split; [by vm_compute|].
  split; [apply reachable_traceBefore, reachable_clicked|].
  repeat split; try (vm_compute; reflexivity).
Qed.

(** C2 (amended).  From a seed of 1.0 with factor 0.6 the strengths
    delivered are exactly those of the hops 1, 2 and 3: a pending
    propagation timer has depth 1, 2 or 3 and delivers 0.6, 0.36 or 0.216
    respectively (every delivery offers [strength * 0.6] to the ledger).
    The call made after the third hop has depth 4 and registers nothing,
    so 0.1296 is never delivered.  Each cutoff halts a branch on its own:
    [depth > 3] whatever the strength, [strength < 0.1] whatever the
    depth; otherwise exactly one timer is registered, [400 * depth] ms
    ahead. *)
Theorem C2_depth_and_strength_cutoffs (g : Graph) (w : World) :
  reachable g w →
  (∀ tm s str d, In tm (timers w) → callback tm = SpreadCb s str d →
     (d = 1 ∧ (str * (6#10) == 6#10)%Q) ∨
     (d = 2 ∧ (str * (6#10) == 36#100)%Q) ∨
     (d = 3 ∧ (str * (6#10) == 216#1000)%Q)) ∧
  (∀ s str d x e,
     activations (deliver g s str d x e) =
     Ledger.setIfHigher (neighborOf s e) (str * (6#10))%Q (activations x)) ∧
  (∀ s str d x, 3 < d → spreadActivation s str d x = x) ∧
  (∀ s str d x, (str < 1#10)%Q → spreadActivation s str d x = x) ∧
  (∀ s str d x, d <= 3 → (1#10 <= str)%Q →
     spreadActivation s str d x =
     setTimeout (SpreadCb s str d) (400 * d) x ∧
     timers (spreadActivation s str d x) =
     timers x ++ [mkTimer (nextTimerId x) (now x + 400 * d) None (SpreadCb s str d)]).
Proof.
  intros Hreach.
  destruct (Inv_reachable g w Hreach) as [_ Ht].
  split; [|split; [|split; [|split]]].
  - intros tm s str d Hin Hcb.
    pose proof (Ht tm Hin) as Hok. unfold timerOk in Hok. rewrite Hcb in Hok.
    destruct Hok as (Hd & Hs & _). by apply strength_at_depth.
  - intros. apply deliver_activations.
  - intros s str d x Hd.
    destruct (spreadActivation_cases s str d x) as [[_ ->]|(Hd' & _ & _)]; [done | lia].
  - intros s str d x Hs.
    destruct (spreadActivation_cases s str d x) as [[_ ->]|(_ & Hs' & _)]; [done | lra].
  - intros s str d x Hd Hs.
    destruct (spreadActivation_cases s str d x) as [[[Hd'|Hs'] _]|(_ & _ & ->)];
      [lia | lra | done].
Qed.

Lemma C2_depth_and_strength_cutoffs_witness :
  (1 = 1 ∧ (1 * (6#10) == 6#10)%Q) ∨
  (1 = 2 ∧ (1 * (6#10) == 36#100)%Q) ∨
  (1 = 3 ∧ (1 * (6#10) == 216#1000)%Q).
Proof.
  destruct (C2_depth_and_strength_cutoffs referenceGraph
              (handleActivate referenceGraph 0 initial)
              (reachable_activate referenceGraph 0 initial (rtc_refl _ _)))
    as (H & _).
  exact (H (mkTimer 1 400 None (SpreadCb 0 1 1)) 0 1%Q 1 (or_introl eq_refl) eq_refl).
Defined.

(** ** The reference scenario (claim C5) *)

(** After the second wave the level of node 2 is not 0.6: nine decay
    sweeps have run since the first wave installed it. *)
Lemma C5_node2_level_counterexample :
  reachable referenceGraph Scenario.wave2from1 ∧
  reachable referenceGraph Scenario.wave2from2 ∧
  nextCallback Scenario.beforeWave2 = Some (SpreadCb 1 (6#10) 2) ∧
  activations Scenario.wave2from1 !! 3 = Some (36#100)%Q ∧
  activations Scenario.wave2from1 !! 2 ≠ Some (6#10)%Q ∧
  ¬ (Ledger.levelOf (activations Scenario.wave2from1) 2 == 6#10)%Q ∧
  ¬ (Ledger.levelOf (activations Scenario.wave2from2) 2 == 6#10)%Q.
Proof.
  split; [exact (proj1 (proj2 (proj2 (proj2 (proj2 Scenario_reachable)))))|].
  split; [exact (proj1 (proj2 (proj2 (proj2 (proj2 (proj2 Scenario_reachable))))))|].
  repeat split; try (vm_compute; reflexivity); vm_compute; discriminate.
Qed.

(** C5 (amended).  On the reference graph, the click on node 0 gives node 0
    level 1.0 and one pulse at its position.  The first wave (the timer
    [spreadActivation(0, 1, 1)], at 400 ms) sets nodes 1 and 2 to 0.6.  In
    the second wave (at 1200 ms) the timer of node 1 sets node 3 to 0.36
    and re-offers 0.36 to node 2 over the edge 1-2, which leaves the entry
    of node 2 as it is: it holds 0.6 * 0.95^9 (about 0.378, still above
    0.36) after the decay sweeps since the first wave; the timer of node 2
    then sets node 4 to 0.36.  The run comes to rest at 5900 ms with an
    empty ledger and no timer left.  (Timers due at the same time are
    taken in creation order.) *)
Theorem C5_reference_scenario :
  reachable referenceGraph Scenario.atRest ∧
  activations Scenario.clicked !! 0 = Some 1%Q ∧
  pulseWaves Scenario.clicked = [mkPulse (0, 0, 0)%Q 0%Q] ∧
  nextCallback Scenario.beforeWave1 = Some (SpreadCb 0 1 1) ∧
  activations Scenario.beforeWave1 !! 1 = None ∧
  activations Scenario.beforeWave1 !! 2 = None ∧
  now Scenario.wave1 = 400 ∧
  activations Scenario.wave1 !! 1 = Some (6#10)%Q ∧
  activations Scenario.wave1 !! 2 = Some (6#10)%Q ∧
  nextCallback Scenario.beforeWave2 = Some (SpreadCb 1 (6#10) 2) ∧
  activations Scenario.beforeWave2 !! 3 = None ∧
  now Scenario.wave2from1 = 1200 ∧
  activations Scenario.wave2from1 !! 3 = Some (36#100)%Q ∧
  activations Scenario.wave2from1 !! 2 = activations Scenario.beforeWave2 !! 2 ∧
  (Ledger.levelOf (activations Scenario.wave2from1) 2 == (6#10) * (95#100) ^ 9)%Q ∧
  (36#100 < Ledger.levelOf (activations Scenario.wave2from1) 2)%Q ∧
  nextCallback Scenario.wave2from1 = Some (SpreadCb 2 (6#10) 2) ∧
  activations Scenario.wave2from1 !! 4 = None ∧
  activations Scenario.wave2from2 !! 4 = Some (36#100)%Q ∧
  activations Scenario.wave2from2 !! 2 = activations Scenario.beforeWave2 !! 2 ∧
  activations Scenario.atRest = ∅ ∧
  timers Scenario.atRest = [] ∧
  now Scenario.atRest = 5900.
Proof.
  split; [exact (proj2 (proj2 (proj2 (proj2 (proj2 (proj2 Scenario_reachable))))))|].
  repeat split; vm_compute; reflexivity.
Qed.

(** ** Order of ledger mutations (claim C6) *)

Section Order.
Import Ledger.

Lemma sameLevels_refl m : sameLevels m m.
Proof. intros k. split; reflexivity. Qed.

Lemma sameLevels_trans m1 m2 m3 :
  sameLevels m1 m2 → sameLevels m2 m3 → sameLevels m1 m3.
Proof.
  intros H12 H23 k. destruct (H12 k) as [Ha Hb], (H23 k) as [Hc Hd].
  split; [by rewrite Ha | by rewrite Hb].
Qed.

Lemma setIfHigher_lookup_None n s m :
  setIfHigher n s m !! n = None ↔ m !! n = None ∧ (s <= 0)%Q.
Proof.
  destruct (Qlt_le_dec (levelOf m n) s) as [Hlt|Hle].
  - rewrite setIfHigher_installs, lookup_insert_eq by done.
    split; [done|]. intros [E H]. unfold levelOf in Hlt. rewrite E in Hlt.
    simpl in Hlt. lra.
  - rewrite setIfHigher_keeps by done.
    split; [|by intros [? _]]. intros E. split; [done|].
    unfold levelOf in Hle. by rewrite E in Hle.
Qed.

Lemma setIfHigher_sameLevels n s s' m m' :
  (s == s')%Q → sameLevels m m' → sameLevels (setIfHigher n s m) (setIfHigher n s' m').
Proof.
  intros Hs Hm k. destruct (Hm k) as [Hnone Hlev].
  destruct (decide (n = k)) as [->|Hne].
  - split.
    + rewrite !setIfHigher_lookup_None, Hnone, Hs. done.
    + rewrite !levelOf_setIfHigher, Hlev, Hs. reflexivity.
  - rewrite !setIfHigher_lookup_ne, !levelOf_setIfHigher_ne by done. done.
Qed.

Lemma setIfHigher_swap n1 s1 n2 s2 m :
  sameLevels (setIfHigher n1 s1 (setIfHigher n2 s2 m))
             (setIfHigher n2 s2 (setIfHigher n1 s1 m)).
Proof.
  intros k.
  destruct (decide (n1 = n2)) as [->|Hne]; [destruct (decide (n2 = k)) as [->|Hk]|].
  - split.
    + rewrite !setIfHigher_lookup_None. tauto.
    + rewrite !levelOf_setIfHigher.
      rewrite <- !Q.max_assoc, (Q.max_comm s1 s2). reflexivity.
  - rewrite !setIfHigher_lookup_ne, !levelOf_setIfHigher_ne by done.
    split; reflexivity.
  - destruct (decide (n1 = k)) as [->|H1]; [|destruct (decide (n2 = k)) as [->|H2]].
    + split.
      * rewrite setIfHigher_lookup_None, (setIfHigher_lookup_ne n2 k) by done.
        rewrite (setIfHigher_lookup_ne n2 k) by done.
        by rewrite setIfHigher_lookup_None.
      * rewrite levelOf_setIfHigher, !(levelOf_setIfHigher_ne n2 k) by done.
        by rewrite levelOf_setIfHigher.
    + split.
      * rewrite (setIfHigher_lookup_ne n1 k) by done.
        rewrite !setIfHigher_lookup_None.
        by rewrite (setIfHigher_lookup_ne n1 k) by done.
      * rewrite (levelOf_setIfHigher_ne n1 k) by done.
        rewrite !levelOf_setIfHigher.
        by rewrite (levelOf_setIfHigher_ne n1 k) by done.
    + rewrite !setIfHigher_lookup_ne, !levelOf_setIfHigher_ne by done.
      split; reflexivity.
Qed.

Lemma deliverAll_sameLevels ds m m' :
  sameLevels m m' → sameLevels (deliverAll ds m) (deliverAll ds m').
Proof.
  revert m m'. induction ds as [|[n s] ds IH]; intros m m' H; simpl; [done|].
  apply IH. by apply setIfHigher_sameLevels.
Qed.

Lemma deliverAll_Permutation ds ds' :
  Permutation ds ds' → ∀ m, sameLevels (deliverAll ds m) (deliverAll ds' m).
Proof.
  induction 1 as [|[n s] l l' _ IH|[n1 s1] [n2 s2] l|l1 l2 l3 _ IH1 _ IH2];
    intros m; simpl.
  - apply sameLevels_refl.
  - apply IH.
  - apply deliverAll_sameLevels, setIfHigher_swap.
  - eapply sameLevels_trans; [apply IH1 | apply IH2].
Qed.

End Order.

Section OrderInTheEngine.
Import Ledger.

Lemma deliverAll_app ds1 ds2 m :
  deliverAll (ds1 ++ ds2) m = deliverAll ds2 (deliverAll ds1 m).
Proof.
  revert m. induction ds1 as [|[n s] ds1 IH]; intros m; simpl; [done|]. apply IH.
Qed.

Lemma spreadCallback_activations g s str d w :
  activations (spreadCallback g s str d w) =
  deliverAll (deliveriesOf g s str) (activations w).
Proof.
  unfold spreadCallback, deliveriesOf.
  generalize (connectedEdges (edges g) s) as es. intros es. revert w.
  induction es as [|e es IH]; intros w; simpl; [done|].
  by rewrite IH, deliver_activations.
Qed.

(** A propagation timer and a decay tick that are due at the same time,
    fired in the two possible orders (both orders are transitions of the
    component), leave different ledgers: node 1 ends at 0.57 when the
    delivery comes first and at 0.6 when the tick comes first, and the two
    runs still differ later on (at 1000 ms). *)
Lemma C6_delivery_and_decay_order_counterexample :
  let w := Scenario.beforeWave1 in
  let tS := mkTimer 1 400 None (SpreadCb 0 1 1) in
  let tD := mkTimer 2 400 (Some 100) (DecayCb 2) in
  In tS (timers w) ∧ In tD (timers w) ∧
  (∀ u, In u (timers w) → 400 <= fireAt u) ∧
  reachable Scenario.G (fire Scenario.G tD (fire Scenario.G tS w)) ∧
  reachable Scenario.G (fire Scenario.G tS (fire Scenario.G tD w)) ∧
  activations (fire Scenario.G tD (fire Scenario.G tS w)) !! 1 = Some ((6#10) * (95#100))%Q ∧
  activations (fire Scenario.G tS (fire Scenario.G tD w)) !! 1 = Some (6#10)%Q ∧
  ¬ sameLevels (activations (fire Scenario.G tD (fire Scenario.G tS w)))
               (activations (fire Scenario.G tS (fire Scenario.G tD w))) ∧
  ¬ sameLevels
      (activations (runBefore 50 Scenario.G 1000 (fire Scenario.G tD (fire Scenario.G tS w))))
      (activations (runBefore 50 Scenario.G 1000 (fire Scenario.G tS (fire Scenario.G tD w)))) ∧
  ¬ sameLevels (fst (decayAll (setIfHigher 1 (6#10) ∅)))
               (setIfHigher 1 (6#10) (fst (decayAll ∅))).
Proof.
  intros w tS tD.
  split; [vm_compute; tauto|].
  split; [vm_compute; tauto|].
  split.
  { intros u Hu. vm_compute in Hu.
    destruct Hu as [<-|[<-|[<-|[]]]]; vm_compute; discriminate. }
  pose proof (proj1 (proj2 Scenario_reachable)) as Hw.
  split.
  { apply reachable_fire_due; [apply reachable_fire_due; [exact Hw|..]|..];
      (vm_compute; tauto) || (vm_compute; reflexivity). }
  split.
  { apply reachable_fire_due; [apply reachable_fire_due; [exact Hw|..]|..];
      (vm_compute; tauto) || (vm_compute; reflexivity). }
  split; [vm_compute; reflexivity|].
  split; [vm_compute; reflexivity|].
  repeat split; intros H; destruct (H 1) as [_ Hl]; vm_compute in Hl; discriminate.
Qed.

(** C6 (amended).  Propagation deliveries commute with one another: the
    deliveries of a list, applied in any order, give ledgers with the
    same entries and equal levels, and so do two propagation callbacks
    run in either order.  Two decay ticks apply the same sweep, so their
    order does not matter for the ledger either.  (A delivery and a decay
    sweep do not commute.) *)
Theorem C6_deliveries_commute (ds ds' : list (Z * Q)) (m : gmap Z Q) :
  Permutation ds ds' →
  sameLevels (deliverAll ds m) (deliverAll ds' m) ∧
  (∀ g s1 str1 d1 s2 str2 d2 w,
     sameLevels
       (activations (spreadCallback g s1 str1 d1 (spreadCallback g s2 str2 d2 w)))
       (activations (spreadCallback g s2 str2 d2 (spreadCallback g s1 str1 d1 w)))) ∧
  (∀ i j w,
     activations (decayTick i (decayTick j w)) =
     activations (decayTick j (decayTick i w))).
Proof.
  intros Hperm. split; [by apply deliverAll_Permutation|]. split.
  - intros g s1 str1 d1 s2 str2 d2 w.
    rewrite !spreadCallback_activations, <- !deliverAll_app.
    apply deliverAll_Permutation, Permutation_app_comm.
  - intros i j w. by rewrite !decayTick_activations.
Qed.

Lemma C6_deliveries_commute_witness :
  sameLevels (deliverAll [(1, (6#10)%Q); (1, (36#100)%Q); (2, (6#10)%Q)] ∅)
             (deliverAll [(2, (6#10)%Q); (1, (36#100)%Q); (1, (6#10)%Q)] ∅).
Proof.
  refine (proj1 (C6_deliveries_commute
                   [(1, (6#10)%Q); (1, (36#100)%Q); (2, (6#10)%Q)]
                   [(2, (6#10)%Q); (1, (36#100)%Q); (1, (6#10)%Q)] ∅ _)).
  apply (perm_trans (l' := [(1, (36#100)%Q); (2, (6#10)%Q); (1, (6#10)%Q)])).
  - apply (Permutation_cons_append [(1, (36#100)%Q); (2, (6#10)%Q)] (1, (6#10)%Q)).
  - apply perm_swap.
Defined.

End OrderInTheEngine.

(** ** Timer ids *)

Lemma NoDup_map_filter {A B} (f : A → B) (p : A → bool) (l : list A) :
  NoDup (List.map f l) → NoDup (List.map f (List.filter p l)).
Proof.
  induction l as [|a l IH]; simpl; [done|].
  rewrite NoDup_cons. intros [Hnotin Hnd].
  destruct (p a); simpl; [|by apply IH].
  apply NoDup_cons. split; [|by apply IH].
  intros Hin. apply Hnotin.
  apply list_elem_of_In in Hin. apply list_elem_of_In.
  apply in_map_iff in Hin as (y & Hy & [Hin _]%filter_In).
  apply in_map_iff. by exists y.
Qed.

Lemma IdsOk_add (t : Timer) (w w' : World) :
  timers w' = timers w ++ [t] → timerId t = nextTimerId w →
  nextTimerId w' = nextTimerId w + 1 →
  IdsOk w → IdsOk w'.
Proof.
  intros Ht Hid Hnext [Hlt Hnd]. unfold IdsOk. rewrite Ht, Hnext. split.
  - intros tm [Hin|[<-|[]]]%in_app_iff; [specialize (Hlt tm Hin)|]; lia.
  - rewrite List.map_app. simpl. apply NoDup_app. split; [done|]. split.
    + intros x Hx Hx'. apply list_elem_of_In in Hx, Hx'.
      destruct Hx' as [<-|[]].
      apply in_map_iff in Hx as (y & Hy & Hin). specialize (Hlt y Hin). lia.
    + apply NoDup_singleton.
Qed.

Lemma IdsOk_same (w w' : World) :
  timers w' = timers w → nextTimerId w' = nextTimerId w → IdsOk w → IdsOk w'.
Proof. intros Ht Hn. unfold IdsOk. by rewrite Ht, Hn. Qed.

Lemma IdsOk_filter (p : Timer → bool) (w w' : World) :
  timers w' = List.filter p (timers w) → nextTimerId w' = nextTimerId w →
  IdsOk w → IdsOk w'.
Proof.
  intros Ht Hn [Hlt Hnd]. unfold IdsOk. rewrite Ht, Hn. split.
  - intros tm [Hin _]%filter_In. by apply Hlt.
  - by apply NoDup_map_filter.
Qed.

Lemma reschedule_ids tm ts :
  period tm ≠ None → List.map timerId (reschedule tm ts) = List.map timerId ts.
Proof.
  intros Hp. unfold reschedule. destruct (period tm) as [p|]; [|done].
  rewrite List.map_map. apply List.map_ext. intros t.
  destruct (timerId t =? timerId tm); done.
Qed.

Lemma IdsOk_reschedule tm w :
  IdsOk w → IdsOk (setTimers (reschedule tm) w).
Proof.
  intros Hw. destruct (period tm) as [p|] eqn:Hp.
  - destruct Hw as [Hlt Hnd]. split; simpl.
    + intros t Hin.
      assert (In (timerId t) (List.map timerId (timers w))) as Hid.
      { rewrite <- (reschedule_ids tm) by congruence. by apply in_map. }
      apply in_map_iff in Hid as (y & <- & Hy). by apply Hlt.
    + rewrite reschedule_ids by congruence. done.
  - apply (IdsOk_filter (fun t => negb (timerId t =? timerId tm)) w);
      [|reflexivity|exact Hw].
    simpl. unfold reschedule. by rewrite Hp.
Qed.

Lemma IdsOk_spreadActivation s str d w : IdsOk w → IdsOk (spreadActivation s str d w).
Proof.
  destruct (spreadActivation_cases s str d w) as [[_ ->]|(_ & _ & ->)]; [done|].
  by apply IdsOk_add with (t := mkTimer (nextTimerId w) (now w + 400 * d) None (SpreadCb s str d)).
Qed.

Lemma IdsOk_deliver g s str d w e : IdsOk w → IdsOk (deliver g s str d w e).
Proof.
  intros Hw. unfold deliver. apply IdsOk_spreadActivation.
  destruct (findNode _ _); [destruct (Qgtb _ _)|]; exact Hw.
Qed.

Lemma IdsOk_spreadCallback g s str d w : IdsOk w → IdsOk (spreadCallback g s str d w).
Proof.
  unfold spreadCallback.
  generalize (connectedEdges (edges g) s) as es. intros es. revert w.
  induction es as [|e es IH]; intros w Hw; simpl; [done|].
  by apply IH, IdsOk_deliver.
Qed.

Lemma IdsOk_decayTick i w : IdsOk w → IdsOk (decayTick i w).
Proof.
  intros Hw.
  destruct (snd (Ledger.decayAll (activations w))) eqn:E.
  - apply (IdsOk_same w); [| |exact Hw].
    + by rewrite decayTick_timers, E.
    + apply decayTick_nextTimerId.
  - apply (IdsOk_filter (fun t => negb (timerId t =? i)) w); [| |exact Hw].
    + by rewrite decayTick_timers, E.
    + apply decayTick_nextTimerId.
Qed.

Lemma IdsOk_fire g tm w : IdsOk w → IdsOk (fire g tm w).
Proof.
  intros Hw. unfold fire.
  assert (IdsOk (setTimers (reschedule tm) (setNow (Z.max (now w) (fireAt tm)) w))) as H1.
  { apply IdsOk_reschedule. exact Hw. }
  destruct (callback tm) as [s str d|i|]; simpl.
  - by apply IdsOk_spreadCallback.
  - by apply IdsOk_decayTick.
  - exact H1.
Qed.

Lemma IdsOk_handleActivate g i w : IdsOk w → IdsOk (handleActivate g i w).
Proof.
  intros Hw. unfold handleActivate.
  destruct (findNode (nodes g) i) as [node|]; [|done].
  eapply IdsOk_add; [reflexivity..|].
  eapply IdsOk_add; [reflexivity..|].
  apply IdsOk_spreadActivation. exact Hw.
Qed.

Lemma IdsOk_reachable g w : reachable g w → IdsOk w.
Proof.
  unfold reachable. intros H.
  eapply (rtc_ind_r (λ w, IdsOk w)); [| | exact H].
  - split; [intros tm [] | apply NoDup_nil_2].
  - intros y z _ Hstep IH.
    destruct Hstep as [i x|time x|t x _|tm x Hin].
    + by apply IdsOk_handleActivate.
    + exact IH.
    + exact IH.
    + by apply IdsOk_fire.
Qed.

(** ** Decay loops (claim C7) *)

(** Two clicks in a row leave two decay intervals registered; both tick at
    100 ms, so node 0 is swept twice by then. *)
Lemma C7_two_decay_loops_counterexample :
  let w := handleActivate referenceGraph 1 (handleActivate referenceGraph 0 initial) in
  reachable referenceGraph w ∧
  decayLoops w = 2%nat ∧
  activations (runBefore 10 referenceGraph 101 w) !! 0 = Some (1 * (95#100) * (95#100))%Q ∧
  ¬ (∀ x, reachable referenceGraph x → (decayLoops x <= 1)%nat).
Proof.
  intros w.
  assert (reachable referenceGraph w) as Hr.
  { apply reachable_activate, reachable_activate, rtc_refl. }
  split; [exact Hr|]. split; [reflexivity|]. split; [vm_compute; reflexivity|].
  intros H. specialize (H w Hr). vm_compute in H. lia.
Qed.

(** C7 (amended).  Every [handleActivate] on a known node registers a decay
    interval of its own (due 100 ms later, repeating every 100 ms),
    whether or not another one is registered: the number of registered
    decay intervals grows by one with each such call. *)
Theorem C7_activate_adds_a_decay_loop (g : Graph) (i : Z) (node : EngramNode) (w : World) :
  findNode (nodes g) i = Some node →
  decayLoops (handleActivate g i w) = S (decayLoops w) ∧
  ∃ decayId,
    In (mkTimer decayId (now w + 100) (Some 100) (DecayCb decayId))
       (timers (handleActivate g i w)).
Proof.
  intros H.
  destruct (handleActivate_timers g i w node H) as (a & b & c & Ht).
  split.
  - unfold decayLoops. rewrite Ht, List.filter_app, List.length_app. simpl. lia.
  - exists b. rewrite Ht. apply in_app_iff. right. simpl. tauto.
Qed.

Lemma C7_activate_adds_a_decay_loop_witness :
  decayLoops (handleActivate referenceGraph 1 (handleActivate referenceGraph 0 initial))
  = S (decayLoops (handleActivate referenceGraph 0 initial)).
Proof.
  exact (proj1 (C7_activate_adds_a_decay_loop referenceGraph 1
                  (mkNode 1 (-(15#10), 1, 5#10)%Q "Latency" concept)
                  (handleActivate referenceGraph 0 initial) eq_refl)).
Defined.

(** ** Unknown ids and dangling edges (claims C8, C9) *)

(** The neighbor lookup of the unknown id 7 is not a no-op: the first wave
    gives 7 a ledger entry and registers a propagation from 7. *)
Lemma C8_unknown_neighbor_counterexample :
  reachable danglingGraph Dangling.wave1 ∧
  findNode (nodes danglingGraph) 7 = None ∧
  nextCallback Dangling.beforeWave1 = Some (SpreadCb 0 1 1) ∧
  activations Dangling.beforeWave1 !! 7 = None ∧
  activations Dangling.wave1 !! 7 = Some (6#10)%Q ∧
  activations Dangling.wave1 ≠ activations Dangling.beforeWave1 ∧
  In (mkTimer 4 1200 None (SpreadCb 7 (6#10) 2)) (timers Dangling.wave1) ∧
  ¬ In (mkTimer 4 1200 None (SpreadCb 7 (6#10) 2)) (timers Dangling.beforeWave1).
Proof.
  split; [exact (proj1 Dangling_reachable)|].
  split; [reflexivity|]. split; [vm_compute; reflexivity|].
  split; [vm_compute; reflexivity|]. split; [vm_compute; reflexivity|].
  split.
  { intros H. apply (f_equal (λ m : gmap Z Q, m !! 7)) in H.
    vm_compute in H. discriminate. }
  split; [vm_compute; tauto|].
  vm_compute. intros Hin.
  repeat (destruct Hin as [Hin|Hin]; [discriminate|]). exact Hin.
Qed.

(** C8 (amended).  For an id that no node carries, [handleActivate] returns
    the state unchanged (ledger, pulses and timers).  A delivery whose
    neighbor id is unknown emits no pulse, but it still offers
    [strength * 0.6] to the ledger under that id and still continues the
    propagation from it. *)
Theorem C8_unknown_id (g : Graph) (i : Z) :
  findNode (nodes g) i = None →
  (∀ w, handleActivate g i w = w) ∧
  (∀ s str d w e, neighborOf s e = i →
     pulseWaves (deliver g s str d w e) = pulseWaves w ∧
     deliver g s str d w e =
       spreadActivation i (str * (6#10))%Q (d + 1)
         (setActivations (Ledger.setIfHigher i (str * (6#10))%Q) w)).
Proof.
  intros H. split.
  - intros w. by apply handleActivate_unknown.
  - intros s str d w e Hn. unfold deliver. rewrite Hn, H.
    by rewrite spreadActivation_pulseWaves.
Qed.

Lemma C8_unknown_id_witness :
  handleActivate referenceGraph 9 (handleActivate referenceGraph 0 initial)
  = handleActivate referenceGraph 0 initial.
Proof.
  exact (proj1 (C8_unknown_id referenceGraph 9 eq_refl)
               (handleActivate referenceGraph 0 initial)).
Defined.

Section Traversal.
Import Ledger.

Lemma deliverAll_never_lowers ds m k :
  (levelOf m k <= levelOf (deliverAll ds m) k)%Q.
Proof.
  revert m. induction ds as [|[n s] ds IH]; intros m; simpl; [lra|].
  eapply Qle_trans; [apply (setIfHigher_never_lowers n k s m) | apply IH].
Qed.

Lemma deliverAll_reaches ds m n s :
  In (n, s) ds → (s <= levelOf (deliverAll ds m) n)%Q.
Proof.
  revert m. induction ds as [|[n' s'] ds IH]; intros m; simpl; [done|].
  intros [[= -> ->]|Hin]; [|by apply IH].
  eapply Qle_trans; [|apply deliverAll_never_lowers].
  rewrite levelOf_setIfHigher. apply Q.le_max_r.
Qed.

Lemma connectedEdges_In es s e :
  In e (connectedEdges es s) ↔ In e es ∧ (source e = s ∨ target e = s).
Proof.
  unfold connectedEdges. rewrite filter_In, orb_true_iff, !Z.eqb_eq. done.
Qed.

Lemma fold_deliver_timers_keep g s str d es w tm :
  In tm (timers w) → In tm (timers (fold_left (deliver g s str d) es w)).
Proof.
  revert w. induction es as [|e es IH]; intros w Hin; simpl; [done|].
  by apply IH, deliver_timers_keep.
Qed.

Lemma deliver_schedules g s str d w e :
  d + 1 <= 3 → (1#10 <= str * (6#10))%Q →
  ∃ tm, In tm (timers (deliver g s str d w e)) ∧
        callback tm = SpreadCb (neighborOf s e) (str * (6#10))%Q (d + 1).
Proof.
  intros Hd Hs. unfold deliver.
  match goal with |- context [spreadActivation ?a ?b ?c ?x] =>
    destruct (spreadActivation_cases a b c x) as [[[Hd'|Hs'] _]|(_ & _ & ->)];
      [lia | lra |]
  end.
  eexists. split; [simpl; apply in_app_iff; right; left; reflexivity|].
  reflexivity.
Qed.

Lemma fold_deliver_schedules g s str d es w e :
  In e es → d + 1 <= 3 → (1#10 <= str * (6#10))%Q →
  ∃ tm, In tm (timers (fold_left (deliver g s str d) es w)) ∧
        callback tm = SpreadCb (neighborOf s e) (str * (6#10))%Q (d + 1).
Proof.
  intros Hin Hd Hs. revert w.
  induction es as [|e' es IH]; intros w; simpl; [done|].
  destruct Hin as [->|Hin]; [|by apply IH].
  destruct (deliver_schedules g s str d w e Hd Hs) as (tm & Htm & Hcb).
  exists tm. split; [by apply fold_deliver_timers_keep | done].
Qed.

End Traversal.

(** The graph with the dangling edge is taken as it is; its diffusion is
    not empty: the id 7 gets a level in the first wave, and the wave that
    starts from 7 emits a pulse at node 0 and schedules a further hop. *)
Lemma C9_dangling_edge_counterexample :
  reachable danglingGraph Dangling.wave2 ∧
  wellFormed danglingGraph = false ∧
  activations Dangling.clicked !! 0 = Some 1%Q ∧
  activations Dangling.wave1 !! 7 = Some (6#10)%Q ∧
  nextCallback Dangling.beforeWave2 = Some (SpreadCb 7 (6#10) 2) ∧
  length (pulseWaves Dangling.wave2) = S (length (pulseWaves Dangling.beforeWave2)) ∧
  In (mkTimer 5 2400 None (SpreadCb 0 (36#100) 3)) (timers Dangling.wave2).
Proof.
  split; [exact (proj2 Dangling_reachable)|].
  split; [vm_compute; reflexivity|].
  split; [vm_compute; reflexivity|].
  split; [vm_compute; reflexivity|].
  split; [vm_compute; reflexivity|].
  split; [vm_compute; reflexivity|].
  vm_compute. tauto.
Qed.

(** C9 (amended).  A graph with an edge whose other endpoint is not a node
    is not rejected: it fails the endpoint check ([wellFormed]) and is
    traversed all the same.  When the propagation callback of the known
    endpoint runs, the missing id gets a ledger level of at least
    [strength * 0.6], and, unless a cutoff applies, a propagation from the
    missing id is registered.  The callback is a total function of the
    state: no error arises. *)
Theorem C9_dangling_edge_is_traversed
    (g : Graph) (e : EngramEdge) (s : Z) (str : Q) (d : Z) (w : World) :
  In e (edges g) →
  source e = s ∨ target e = s →
  findNode (nodes g) (neighborOf s e) = None →
  wellFormed g = false ∧
  (str * (6#10) <=
     Ledger.levelOf (activations (spreadCallback g s str d w)) (neighborOf s e))%Q ∧
  (d + 1 <= 3 → (1#10 <= str * (6#10))%Q →
     ∃ tm, In tm (timers (spreadCallback g s str d w)) ∧
           callback tm = SpreadCb (neighborOf s e) (str * (6#10))%Q (d + 1)).
Proof.
  intros Hin Hs Hnone.
  assert (In e (connectedEdges (edges g) s)) as Hc by (by apply connectedEdges_In).
  split; [|split].
  - unfold wellFormed. apply not_true_iff_false. intros Hall.
    rewrite forallb_forall in Hall. specialize (Hall e Hin).
    unfold edgeResolves, neighborOf in *.
    destruct (source e =? s) eqn:E.
    + rewrite Hnone in Hall. by destruct (findNode (nodes g) (source e)).
    + by rewrite Hnone in Hall.
  - rewrite spreadCallback_activations. apply deliverAll_reaches.
    unfold deliveriesOf. apply in_map_iff. by exists e.
  - intros Hd Hstr. by apply fold_deliver_schedules.
Qed.

Lemma C9_dangling_edge_is_traversed_witness :
  (1 * (6#10) <=
     Ledger.levelOf (activations (spreadCallback danglingGraph 0 1 1 Dangling.beforeWave1)) 7)%Q.
Proof.
  exact (proj1 (proj2 (C9_dangling_edge_is_traversed danglingGraph (mkEdge 0 7) 0 1 1
                         Dangling.beforeWave1
                         (or_introl eq_refl) (or_introl eq_refl) eq_refl))).
Defined.

(** ** Strengths are threaded, not re-read (claim C10) *)

Lemma spreadActivation_sched s str d x y :
  sched x = sched y → sched (spreadActivation s str d x) = sched (spreadActivation s str d y).
Proof.
  unfold spreadActivation. destruct (_ || _); [done|].
  unfold sched, setTimeout. simpl. intros [= -> -> ->]. done.
Qed.

Lemma deliver_sched g s str d x y e :
  sched x = sched y → sched (deliver g s str d x e) = sched (deliver g s str d y e).
Proof.
  intros H. unfold deliver. apply spreadActivation_sched.
  destruct (findNode _ _); [destruct (Qgtb _ _)|]; exact H.
Qed.

Lemma spreadCallback_sched g s str d x y :
  sched x = sched y → sched (spreadCallback g s str d x) = sched (spreadCallback g s str d y).
Proof.
  unfold spreadCallback.
  generalize (connectedEdges (edges g) s) as es. intros es. revert x y.
  induction es as [|e es IH]; intros x y H; simpl; [done|].
  by apply IH, deliver_sched.
Qed.

Lemma NoDup_map_eq {A B} (f : A → B) (l : list A) (a b : A) :
  NoDup (List.map f l) → In a l → In b l → f a = f b → a = b.
Proof.
  induction l as [|c l IH]; simpl; [done|].
  rewrite NoDup_cons. intros [Hnotin Hnd] [->|Ha] [->|Hb] Heq; try done.
  - exfalso. apply Hnotin. rewrite Heq. apply list_elem_of_In. by apply in_map.
  - exfalso. apply Hnotin. rewrite <- Heq. apply list_elem_of_In. by apply in_map.
  - by apply IH.
Qed.

(** C10.  In every reachable state a pending propagation timer of depth
    [d] carries the strength [0.6 ^ (d - 1)], handed down through the
    recursion, and so delivers [0.6 ^ d].  What its callback offers to the
    ledger and which timers it registers next do not depend on the ledger:
    with any other ledger [m] in place the same timers result, and the
    offers are the same list of [strength * 0.6].  A decay tick leaves
    every pending propagation timer registered and unchanged. *)
Theorem C10_strength_is_threaded (g : Graph) (w : World) :
  reachable g w →
  (∀ tm s str d, In tm (timers w) → callback tm = SpreadCb s str d →
     1 <= d <= 3 ∧
     (str == (6#10) ^ (d - 1))%Q ∧ (str * (6#10) == (6#10) ^ d)%Q) ∧
  (∀ s str d x m,
     timers (spreadCallback g s str d (setActivations (λ _, m) x)) =
       timers (spreadCallback g s str d x) ∧
     activations (spreadCallback g s str d (setActivations (λ _, m) x)) =
       deliverAll (deliveriesOf g s str) m) ∧
  (∀ tD i tS s str d,
     In tD (timers w) → callback tD = DecayCb i →
     In tS (timers w) → callback tS = SpreadCb s str d →
     In tS (timers (fire g tD w))).
Proof.
  intros Hreach.
  destruct (Inv_reachable g w Hreach) as [_ Ht].
  destruct (IdsOk_reachable g w Hreach) as [_ Hnd].
  split; [|split].
  - intros tm s str d Hin Hcb.
    pose proof (Ht tm Hin) as Hok. unfold timerOk in Hok. rewrite Hcb in Hok.
    destruct Hok as (Hd & Hs & _).
    split; [done|]. split; [done|].
    destruct (strength_next d str Hd Hs) as [_ Hn].
    rewrite Hn. by replace (d + 1 - 1) with d by lia.
  - intros s str d x m. split.
    + assert (sched (spreadCallback g s str d (setActivations (λ _, m) x)) =
              sched (spreadCallback g s str d x)) as H
        by (by apply spreadCallback_sched).
      unfold sched in H. by injection H.
    + by rewrite spreadCallback_activations.
  - intros tD i tS s str d HinD HcbD HinS HcbS.
    pose proof (Ht tD HinD) as Hok. unfold timerOk in Hok. rewrite HcbD in Hok.
    destruct Hok as [Hid Hper].
    assert (timerId tS ≠ timerId tD) as Hne.
    { intros Heq.
      assert (tS = tD) as -> by (by eapply (NoDup_map_eq timerId (timers w))).
      congruence. }
    unfold fire. rewrite HcbD. cbn [runCallback].
    assert (In tS (reschedule tD (timers w))) as Hres.
    { unfold reschedule. rewrite Hper. apply in_map_iff. exists tS.
      split; [|done]. destruct (timerId tS =? timerId tD) eqn:E; [lia|done]. }
    rewrite decayTick_timers. cbn [timers activations setTimers setNow].
    destruct (snd _); [done|].
    apply filter_In. split; [done|].
    apply negb_true_iff. lia.
Qed.

Lemma C10_strength_is_threaded_witness :
  1 <= 1 <= 3 ∧ (1 == (6#10) ^ (1 - 1))%Q ∧ (1 * (6#10) == (6#10) ^ 1)%Q.
Proof.
  exact (proj1 (C10_strength_is_threaded referenceGraph Scenario.clicked
                  (reachable_activate referenceGraph 0 initial (rtc_refl _ _)))
               (mkTimer 1 400 None (SpreadCb 0 1 1)) 0 1%Q 1 (or_introl eq_refl) eq_refl).
Defined.

(** ** The constants on IEEE doubles *)

(** The three hops deliver the doubles written [0.6], [0.36] and [0.216];
    none of the strengths passed down is below [0.1]; all three transfers
    exceed the pulse threshold [0.2]; and nine sweeps of [0.6] stay above
    [0.36].  The comparisons made on rationals above therefore come out
    the same in the arithmetic of the source. *)
Lemma binary64_agrees :
  let hop := Binary64.transferStrength in
  let sweep := Binary64.newValue in
  PrimFloat.eqb (hop 1%float) 0.6%float = true ∧
  PrimFloat.eqb (hop (hop 1%float)) 0.36%float = true ∧
  PrimFloat.eqb (hop (hop (hop 1%float))) 0.216%float = true ∧
  PrimFloat.ltb 1%float 0.1%float = false ∧
  PrimFloat.ltb (hop 1%float) 0.1%float = false ∧
  PrimFloat.ltb (hop (hop 1%float)) 0.1%float = false ∧
  Binary64.gtb (hop (hop (hop 1%float))) 0.2%float = true ∧
  Binary64.gtb (sweep (sweep (sweep (sweep (sweep (sweep (sweep (sweep (sweep
                 (hop 1%float)))))))))) (hop (hop 1%float)) = true ∧
  Binary64.gtb (sweep 1%float) 0.05%float = true.
Proof. repeat split; vm_compute; reflexivity. Qed.

(** * Further properties *)

(** ** Induction over the reachable states and over a propagation callback *)

Lemma reachable_step g w w' : reachable g w → step g w w' → reachable g w'.
Proof. intros H Hs. eapply rtc_r; [exact H | exact Hs]. Qed.

Lemma reachable_induction (g : Graph) (P : World → Prop) :
  P initial →
  (∀ w w', reachable g w → P w → step g w w' → P w') →
  ∀ w, reachable g w → P w.
Proof.
  intros H0 Hstep w Hw.
  assert (reachable g w ∧ P w) as [_ HP]; [|exact HP].
  unfold reachable in Hw.
  eapply (rtc_ind_r (λ x, reachable g x ∧ P x)); [| | exact Hw].
  - split; [apply rtc_refl | exact H0].
  - intros y z _ Hyz [Hy HPy].
    split; [by eapply reachable_step | by eapply Hstep].
Qed.

Lemma spreadCallback_induction (P : World → Prop) g s str d w :
  P w →
  (∀ x e, In e (connectedEdges (edges g) s) → P x → P (deliver g s str d x e)) →
  P (spreadCallback g s str d w).
Proof.
  unfold spreadCallback.
  generalize (connectedEdges (edges g) s) as es. intros es. revert w.
  induction es as [|e es IH]; intros w Hw Hd; simpl; [done|].
  apply IH; [apply Hd; [by left | done]|].
  intros x e' He'. apply Hd. by right.
Qed.

Lemma deliver_pulseWaves g s str d w e :
  pulseWaves (deliver g s str d w e) =
  match findNode (nodes g) (neighborOf s e) with
  | Some neighborNode =>
      if Qgtb (str * (6#10)) (2#10)
      then pulseWaves w ++ [mkPulse (position neighborNode) (clockRef w)]
      else pulseWaves w
  | None => pulseWaves w
  end.
Proof.
  unfold deliver. rewrite spreadActivation_pulseWaves.
  destruct (findNode _ _); [destruct (Qgtb _ _)|]; done.
Qed.

Lemma deliver_clockRef g s str d w e : clockRef (deliver g s str d w e) = clockRef w.
Proof.
  unfold deliver. rewrite spreadActivation_clockRef.
  destruct (findNode _ _); [destruct (Qgtb _ _)|]; done.
Qed.

Lemma deliver_now g s str d w e : now (deliver g s str d w e) = now w.
Proof.
  unfold deliver. rewrite spreadActivation_now.
  destruct (findNode _ _); [destruct (Qgtb _ _)|]; done.
Qed.

(** ** Levels stay between the floor and 1 *)

(** X1.  In every reachable state each ledger entry lies above the floor
    0.05 and at most at 1: entries at or below 0.05 are never stored. *)
Theorem levels_between_floor_and_one (g : Graph) (w : World) (k : Z) (v : Q) :
  reachable g w → activations w !! k = Some v → (5#100 < v <= 1)%Q.
Proof.
  intros Hreach. revert k v.
  apply (reachable_induction g
           (λ w, ∀ k v, activations w !! k = Some v → (5#100 < v <= 1)%Q));
    [| |exact Hreach].
  - intros k v H. simpl in H. by rewrite lookup_empty in H.
  - clear w Hreach. intros w w' Hw IH Hstep.
    destruct Hstep as [i w|time w|t w _|tm w Hin]; try exact IH.
    + destruct (findNode (nodes g) i) as [node|] eqn:E;
        [|by rewrite handleActivate_unknown].
      rewrite (handleActivate_activations _ _ _ _ E).
      intros k v. destruct (decide (i = k)) as [->|Hne].
      * rewrite lookup_insert_eq. intros [= <-]. lra.
      * rewrite lookup_insert_ne by done. apply IH.
    + destruct (Inv_reachable g w Hw) as [_ Ht].
      pose proof (Ht tm Hin) as Hok. unfold timerOk in Hok.
      unfold fire. destruct (callback tm) as [s str d|i|]; cbn [runCallback].
      * destruct Hok as (Hd & Hs & _).
        apply spreadCallback_induction; [exact IH|].
        intros x e _ Hx k v. rewrite deliver_activations.
        unfold Ledger.setIfHigher. destruct (Qgtb _ _); [|apply Hx].
        destruct (decide (neighborOf s e = k)) as [->|Hne].
        -- rewrite lookup_insert_eq. intros [= <-].
           destruct (strength_at_depth d str Hd Hs) as [[_ E]|[[_ E]|[_ E]]];
             rewrite E; split; reflexivity || discriminate.
        -- rewrite lookup_insert_ne by done. apply Hx.
      * intros k v. rewrite decayTick_activations, decayAll_unfold. cbn [fst].
        rewrite lookup_decaySweep. cbn [activations setTimers setNow].
        destruct (activations w !! k) as [v0|] eqn:E; simpl; [|done].
        intros [-> Hfloor]%decayEntry_Some.
        apply IH in E. lra.
      * exact IH.
Qed.

Lemma levels_between_floor_and_one_witness :
  (5#100 < 1 <= 1)%Q.
Proof.
  exact (levels_between_floor_and_one referenceGraph Scenario.clicked 0 1%Q
           (reachable_clicked referenceGraph 0) eq_refl).
Defined.

(** ** Activation stays on the nodes of a well-formed graph *)

Lemma reschedule_callback tm ts t :
  In t (reschedule tm ts) → ∃ t0, In t0 ts ∧ callback t = callback t0 ∧ timerId t = timerId t0.
Proof.
  unfold reschedule. destruct (period tm) as [p|].
  - intros (t0 & <- & Hin)%in_map_iff. exists t0.
    destruct (timerId t0 =? timerId tm); done.
  - intros [Hin _]%filter_In. by exists t.
Qed.

Lemma knownId_true g k : knownId g k = true ↔ ∃ n, findNode (nodes g) k = Some n.
Proof.
  unfold knownId. destruct (findNode (nodes g) k) as [n|]; split; try done.
  - intros _. by exists n.
  - intros [n Hn]. done.
Qed.

Lemma wellFormed_neighbor g s e :
  wellFormed g = true → In e (connectedEdges (edges g) s) →
  knownId g (neighborOf s e) = true.
Proof.
  intros Hwf [Hin _]%connectedEdges_In.
  unfold wellFormed in Hwf. rewrite forallb_forall in Hwf.
  specialize (Hwf e Hin). unfold edgeResolves in Hwf.
  unfold knownId, neighborOf.
  destruct (source e =? s);
    destruct (findNode (nodes g) (source e)), (findNode (nodes g) (target e));
    done.
Qed.

(** X2.  On a graph all of whose edges join existing nodes, activation
    never leaves the node set: in every reachable state each id with a
    ledger entry, and each source of a pending propagation, is the id of a
    node. *)
Theorem activation_stays_on_nodes (g : Graph) (w : World) :
  wellFormed g = true → reachable g w →
  (∀ k, is_Some (activations w !! k) → knownId g k = true) ∧
  (∀ tm s str d, In tm (timers w) → callback tm = SpreadCb s str d →
                 knownId g s = true).
Proof.
  intros Hwf Hreach.
  apply (reachable_induction g
           (λ w, (∀ k, is_Some (activations w !! k) → knownId g k = true) ∧
                 (∀ tm s str d, In tm (timers w) → callback tm = SpreadCb s str d →
                                knownId g s = true)));
    [| |exact Hreach].
  - split; [intros k [v H]; simpl in H; by rewrite lookup_empty in H | intros tm ? ? ? []].
  - clear w Hreach. intros w w' Hw [IHa IHt] Hstep.
    destruct Hstep as [i w|time w|t w _|tm w Hin]; try (split; assumption).
    + destruct (findNode (nodes g) i) as [node|] eqn:E;
        [|rewrite handleActivate_unknown by done; split; assumption].
      assert (knownId g i = true) as Hi by (apply knownId_true; eauto).
      split.
      * rewrite (handleActivate_activations _ _ _ _ E). intros k.
        destruct (decide (i = k)) as [->|Hne]; [done|].
        rewrite lookup_insert_ne by done. apply IHa.
      * destruct (handleActivate_timers g i w node E) as (a & b & c & ->).
        intros tm s str d. rewrite in_app_iff. simpl.
        intros [Hin|[<-|[<-|[<-|[]]]]]; simpl; try done.
        -- by apply IHt.
        -- by intros [= <- _ _].
    + assert (∀ t s str d, In t (reschedule tm (timers w)) →
                callback t = SpreadCb s str d → knownId g s = true) as Hres.
      { intros t s str d (t0 & Hin0 & Hcb & _)%reschedule_callback Ht.
        rewrite Hcb in Ht. by eapply IHt. }
      unfold fire. destruct (callback tm) as [s str d|i|] eqn:Hcb; cbn [runCallback].
      * assert (knownId g s = true) as Hs by (by eapply IHt).
        apply spreadCallback_induction; [split; assumption|].
        intros x e He [Hxa Hxt].
        pose proof (wellFormed_neighbor g s e Hwf He) as Hn.
        split.
        -- intros k. rewrite deliver_activations. unfold Ledger.setIfHigher.
           destruct (Qgtb _ _); [|apply Hxa].
           destruct (decide (neighborOf s e = k)) as [<-|Hne]; [done|].
           rewrite lookup_insert_ne by done. apply Hxa.
        -- intros t s' str' d' [Hin'|(Hcb' & _)]%deliver_timers_in Ht.
           ++ by eapply Hxt.
           ++ rewrite Hcb' in Ht. by injection Ht as <- _ _.
      * split.
        -- intros k. rewrite decayTick_activations, decayAll_unfold. cbn [fst].
           rewrite lookup_decaySweep. cbn [activations setTimers setNow].
           destruct (activations w !! k) as [v0|] eqn:E; simpl.
           ++ intros _. apply IHa. by rewrite E.
           ++ by intros [? ?].
        -- intros t s str d. rewrite decayTick_timers.
           cbn [activations timers setTimers setNow].
           destruct (snd _); [apply Hres|].
           intros [Hin' _]%filter_In. by apply Hres.
      * split; [exact IHa | exact Hres].
Qed.

Lemma activation_stays_on_nodes_witness :
  knownId referenceGraph 0 = true.
Proof.
  exact (proj1 (activation_stays_on_nodes referenceGraph Scenario.clicked
                  eq_refl (reachable_clicked referenceGraph 0))
               0 (ex_intro _ 1%Q eq_refl)).
Defined.

(** ** Pulses sit on nodes *)

(** X3.  In every reachable state, on any graph, each pulse in the list
    has the position of a node of the graph as its origin. *)
Theorem pulses_sit_on_nodes (g : Graph) (w : World) (p : PulseWave) :
  reachable g w → In p (pulseWaves w) →
  ∃ n, In n (nodes g) ∧ origin p = position n.
Proof.
  intros Hreach. revert p.
  apply (reachable_induction g
           (λ w, ∀ p, In p (pulseWaves w) → ∃ n, In n (nodes g) ∧ origin p = position n));
    [| |exact Hreach].
  - intros p [].
  - clear w Hreach. intros w w' Hw IH Hstep.
    destruct Hstep as [i w|time w|t w _|tm w Hin]; try exact IH.
    + destruct (findNode (nodes g) i) as [node|] eqn:E;
        [|by rewrite handleActivate_unknown].
      rewrite (handleActivate_pulseWaves _ _ _ _ E).
      intros p [Hp|[<-|[]]]%in_app_iff; [by apply IH|].
      exists node. split; [|done]. by destruct (find_some _ _ E).
    + unfold fire. destruct (callback tm) as [s str d|i|]; cbn [runCallback].
      * apply spreadCallback_induction; [exact IH|].
        intros x e _ Hx p. rewrite deliver_pulseWaves.
        destruct (findNode (nodes g) (neighborOf s e)) as [n|] eqn:E; [|apply Hx].
        destruct (Qgtb _ _); [|apply Hx].
        intros [Hp|[<-|[]]]%in_app_iff; [by apply Hx|].
        exists n. split; [|done]. by destruct (find_some _ _ E).
      * intros p. rewrite decayTick_pulseWaves. apply IH.
      * intros p [].
Qed.

Lemma pulses_sit_on_nodes_witness :
  ∃ n, In n (nodes referenceGraph) ∧ origin (mkPulse (0, 0, 0)%Q 0%Q) = position n.
Proof.
  exact (pulses_sit_on_nodes referenceGraph Scenario.clicked (mkPulse (0, 0, 0)%Q 0%Q)
           (reachable_clicked referenceGraph 0) (or_introl eq_refl)).
Defined.

(** ** What can lower a level *)

Lemma level_range w k :
  Inv w → (0 <= Ledger.levelOf (activations w) k <= 1)%Q.
Proof.
  intros [Hl _]. unfold Ledger.levelOf.
  destruct (activations w !! k) as [v|] eqn:E; simpl; [|lra].
  apply Hl in E. lra.
Qed.

Lemma click_never_lowers g i w k :
  Inv w →
  (Ledger.levelOf (activations w) k <=
   Ledger.levelOf (activations (handleActivate g i w)) k)%Q.
Proof.
  intros HI.
  destruct (findNode (nodes g) i) as [node|] eqn:E;
    [|rewrite handleActivate_unknown by done; lra].
  rewrite (handleActivate_activations _ _ _ _ E).
  destruct (decide (i = k)) as [->|Hne].
  - rewrite levelOf_insert. apply (level_range w k HI).
  - rewrite levelOf_insert_ne by done. lra.
Qed.

(** X4.  In a reachable state the seed of a click, written with a plain
    [set(id, 1)], agrees with the merge-max rule: the ledger after
    [handleActivate] on a known node has the same entries and levels as
    [setIfHigher id 1] would give, and no node's level is lowered. *)
Theorem click_seed_is_merge_max (g : Graph) (i : Z) (node : EngramNode) (w : World) :
  reachable g w → findNode (nodes g) i = Some node →
  sameLevels (activations (handleActivate g i w))
             (Ledger.setIfHigher i 1 (activations w)) ∧
  (∀ k, (Ledger.levelOf (activations w) k <=
         Ledger.levelOf (activations (handleActivate g i w)) k)%Q).
Proof.
  intros Hreach E.
  pose proof (Inv_reachable g w Hreach) as HI.
  split; [|intros k; by apply click_never_lowers].
  rewrite (handleActivate_activations _ _ _ _ E). intros k.
  destruct (decide (i = k)) as [->|Hne].
  - split.
    + rewrite lookup_insert_eq, setIfHigher_lookup_None.
      split; [done | intros [_ H]; lra].
    + rewrite levelOf_insert, levelOf_setIfHigher.
      pose proof (level_range w k HI). symmetry. apply Q.max_r. lra.
  - rewrite lookup_insert_ne, setIfHigher_lookup_ne by done.
    rewrite levelOf_insert_ne, levelOf_setIfHigher_ne by done.
    split; reflexivity.
Qed.

Lemma click_seed_is_merge_max_witness :
  sameLevels (activations (handleActivate referenceGraph 0 Scenario.clicked))
             (Ledger.setIfHigher 0 1 (activations Scenario.clicked)).
Proof.
  exact (proj1 (click_seed_is_merge_max referenceGraph 0
                  (mkNode 0 (0, 0, 0)%Q "Query: Orders Slow" query) Scenario.clicked
                  (reachable_clicked referenceGraph 0) eq_refl)).
Defined.

Lemma spreadCallback_never_lowers g s str d w k :
  (Ledger.levelOf (activations w) k <=
   Ledger.levelOf (activations (spreadCallback g s str d w)) k)%Q.
Proof. rewrite spreadCallback_activations. apply deliverAll_never_lowers. Qed.

(** X5.  Only a decay tick lowers a level: along every transition from a
    reachable state that is not the firing of a decay interval (a click,
    a clock update, the passing of time, a propagation callback, the
    clearing of the pulses) no node's level goes down. *)
Theorem only_decay_lowers (g : Graph) (w w' : World) (k : Z) :
  reachable g w → step g w w' →
  (∃ tm i, In tm (timers w) ∧ callback tm = DecayCb i ∧ w' = fire g tm w) ∨
  (Ledger.levelOf (activations w) k <= Ledger.levelOf (activations w') k)%Q.
Proof.
  intros Hreach Hstep.
  pose proof (Inv_reachable g w Hreach) as HI.
  destruct Hstep as [i w|time w|t w _|tm w Hin].
  - right. by apply click_never_lowers.
  - right. simpl. lra.
  - right. simpl. lra.
  - destruct (callback tm) as [s str d|i|] eqn:Hcb.
    + right. unfold fire. rewrite Hcb. cbn [runCallback].
      eapply Qle_trans; [|apply spreadCallback_never_lowers]. simpl. lra.
    + left. by exists tm, i.
    + right. unfold fire. rewrite Hcb. simpl. lra.
Qed.

Lemma only_decay_lowers_witness :
  (∃ tm i, In tm (timers initial) ∧ callback tm = DecayCb i ∧
           Scenario.clicked = fire referenceGraph tm initial) ∨
  (Ledger.levelOf (activations initial) 0 <=
   Ledger.levelOf (activations Scenario.clicked) 0)%Q.
Proof.
  exact (only_decay_lowers referenceGraph initial Scenario.clicked 0
           (rtc_refl _ _) (step_activate referenceGraph 0 initial)).
Defined.

(** ** What one hop emits and registers *)

Lemma fold_deliver_pulseWaves g s str d es w :
  Qgtb (str * (6#10)) (2#10) = true →
  pulseWaves (fold_left (deliver g s str d) es w) =
  pulseWaves w ++
  flat_map (fun e => match findNode (nodes g) (neighborOf s e) with
                     | Some neighborNode => [mkPulse (position neighborNode) (clockRef w)]
                     | None => []
                     end) es.
Proof.
  intros Hgt. revert w. induction es as [|e es IH]; intros w; simpl.
  - by rewrite app_nil_r.
  - rewrite IH, deliver_pulseWaves, deliver_clockRef, Hgt.
    destruct (findNode (nodes g) (neighborOf s e)); [|done].
    by rewrite <- app_assoc.
Qed.

Lemma hop_strength_bounds d str :
  1 <= d <= 3 → (str == (6#10) ^ (d - 1))%Q →
  (2#10 < str * (6#10))%Q ∧ (1#10 <= str * (6#10))%Q.
Proof.
  intros Hd Hs.
  destruct (strength_at_depth d str Hd Hs) as [[_ E]|[[_ E]|[_ E]]];
    rewrite E; split; reflexivity || discriminate.
Qed.

(** X6.  In every reachable state, the firing of a propagation timer
    appends one pulse for each incident edge whose other endpoint is a
    node, stamped with the current engine clock, in edge order: the test
    [transferStrength > 0.2] never holds a pulse back, and a pulse is
    emitted whether or not the neighbor's level was raised. *)
Theorem every_hop_pulses (g : Graph) (w : World) (tm : Timer) (s : Z) (str : Q) (d : Z) :
  reachable g w → In tm (timers w) → callback tm = SpreadCb s str d →
  pulseWaves (fire g tm w) = pulseWaves w ++ pulsesOf g (clockRef w) s.
Proof.
  intros Hreach Hin Hcb.
  destruct (Inv_reachable g w Hreach) as [_ Ht].
  pose proof (Ht tm Hin) as Hok. unfold timerOk in Hok. rewrite Hcb in Hok.
  destruct Hok as (Hd & Hs & _).
  destruct (hop_strength_bounds d str Hd Hs) as [Hgt _].
  unfold fire. rewrite Hcb. cbn [runCallback]. unfold spreadCallback, pulsesOf.
  rewrite fold_deliver_pulseWaves by (by apply Qgtb_true). done.
Qed.

Lemma every_hop_pulses_witness :
  pulseWaves (fire referenceGraph (mkTimer 1 400 None (SpreadCb 0 1 1)) Scenario.clicked) =
  pulseWaves Scenario.clicked ++ pulsesOf referenceGraph (clockRef Scenario.clicked) 0.
Proof.
  exact (every_hop_pulses referenceGraph Scenario.clicked
           (mkTimer 1 400 None (SpreadCb 0 1 1)) 0 1%Q 1
           (reachable_clicked referenceGraph 0) (or_introl eq_refl) eq_refl).
Defined.

Lemma deliver_timers_exact g s str d w e :
  (1#10 <= str * (6#10))%Q →
  timers (deliver g s str d w e) =
  if d + 1 <=? 3
  then timers w ++ [mkTimer (nextTimerId w) (now w + 400 * (d + 1)) None
                            (SpreadCb (neighborOf s e) (str * (6#10))%Q (d + 1))]
  else timers w.
Proof.
  intros Hs. unfold deliver.
  match goal with |- context [spreadActivation ?a ?b ?c ?x] =>
    destruct (spreadActivation_cases a b c x) as [[[Hd'|Hs'] ->]|(Hd' & _ & ->)]
  end.
  - destruct (d + 1 <=? 3) eqn:E; [lia|].
    destruct (findNode _ _); [destruct (Qgtb _ _)|]; done.
  - lra.
  - destruct (d + 1 <=? 3) eqn:E; [|lia].
    destruct (findNode _ _); [destruct (Qgtb _ _)|]; done.
Qed.

Lemma fold_deliver_callbacks g s str d es w :
  (1#10 <= str * (6#10))%Q →
  List.map callback (timers (fold_left (deliver g s str d) es w)) =
  List.map callback (timers w) ++
  (if d + 1 <=? 3
   then List.map (fun e => SpreadCb (neighborOf s e) (str * (6#10))%Q (d + 1)) es
   else []).
Proof.
  intros Hs. revert w. induction es as [|e es IH]; intros w; simpl.
  - destruct (d + 1 <=? 3); by rewrite app_nil_r.
  - rewrite IH, deliver_timers_exact by done.
    destruct (d + 1 <=? 3); [|done].
    rewrite List.map_app, <- app_assoc. done.
Qed.

Lemma fold_deliver_due g s str d es w t :
  In t (timers (fold_left (deliver g s str d) es w)) →
  In t (timers w) ∨ fireAt t = now w + 400 * (d + 1).
Proof.
  revert w. induction es as [|e es IH]; intros w; simpl; [by left|].
  intros [Hin|Hdue]%IH.
  - unfold deliver in Hin.
    apply spreadActivation_timers_in in Hin as [Hin|(-> & _)].
    + left. destruct (findNode _ _); [destruct (Qgtb _ _)|]; done.
    + right. simpl. destruct (findNode _ _); [destruct (Qgtb _ _)|]; done.
  - right. by rewrite deliver_now in Hdue.
Qed.

(** X7.  In every reachable state, when a propagation timer of depth [d]
    fires it is dropped and, if [d < 3], one new propagation of depth
    [d + 1] is registered for every incident edge (the edge it came along
    included), due [400 * (d + 1)] ms later; at depth 3 nothing is
    registered.  The strength passed on is never below 0.1, so it is the
    depth test alone that ends the recursion. *)
Theorem every_hop_fans_out (g : Graph) (w : World) (tm : Timer) (s : Z) (str : Q) (d : Z) :
  reachable g w → In tm (timers w) → callback tm = SpreadCb s str d →
  (1#10 <= str * (6#10))%Q ∧
  List.map callback (timers (fire g tm w)) =
    List.map callback (List.filter (fun t => negb (timerId t =? timerId tm)) (timers w))
    ++ hopsOf g s str d ∧
  (∀ t, In t (timers (fire g tm w)) →
        In t (timers w) ∨ fireAt t = Z.max (now w) (fireAt tm) + 400 * (d + 1)).
Proof.
  intros Hreach Hin Hcb.
  destruct (Inv_reachable g w Hreach) as [_ Ht].
  pose proof (Ht tm Hin) as Hok. unfold timerOk in Hok. rewrite Hcb in Hok.
  destruct Hok as (Hd & Hs & Hper).
  destruct (hop_strength_bounds d str Hd Hs) as [_ Hge].
  split; [exact Hge|].
  unfold fire. rewrite Hcb. cbn [runCallback]. unfold spreadCallback. split.
  - rewrite fold_deliver_callbacks by done.
    cbn [timers setTimers setNow]. unfold reschedule, hopsOf. rewrite Hper.
    replace (d + 1 <=? 3) with (d <? 3) by lia. done.
  - intros t [Hold|Hdue]%fold_deliver_due.
    + left. cbn [timers setTimers setNow] in Hold. unfold reschedule in Hold.
      rewrite Hper in Hold. by apply filter_In in Hold as [? _].
    + right. exact Hdue.
Qed.

Lemma every_hop_fans_out_witness :
  List.map callback
    (timers (fire referenceGraph (mkTimer 1 400 None (SpreadCb 0 1 1)) Scenario.clicked)) =
  List.map callback
    (List.filter (fun t => negb (timerId t =? 1)) (timers Scenario.clicked))
  ++ hopsOf referenceGraph 0 1 1.
Proof.
  exact (proj1 (proj2 (every_hop_fans_out referenceGraph Scenario.clicked
                         (mkTimer 1 400 None (SpreadCb 0 1 1)) 0 1%Q 1
                         (reachable_clicked referenceGraph 0) (or_introl eq_refl) eq_refl))).
Defined.

(** ** How long a level lasts *)

Lemma lookup_sweep (m : gmap Z Q) (k : Z) :
  sweep m !! k = m !! k ≫= decayEntry (95#100) (5#100).
Proof. unfold sweep. rewrite decayAll_unfold. apply lookup_decaySweep. Qed.

Lemma sweep_empty_iff (m : gmap Z Q) :
  snd (Ledger.decayAll m) = false ↔ sweep m = ∅.
Proof. apply decayAll_flag_false. Qed.

Lemma decayedBy_S n v : decayedBy (S n) v = (decayedBy n v * (95#100))%Q.
Proof. reflexivity. Qed.

Lemma decayedBy_shift n v : decayedBy n (v * (95#100)) = decayedBy (S n) v.
Proof.
  induction n as [|n IH]; [done|].
  rewrite (decayedBy_S (S n) v), <- IH. reflexivity.
Qed.

Lemma decayedBy_scale n v : (decayedBy n v == v * decayedBy n 1)%Q.
Proof.
  induction n as [|n IH]; [simpl; ring|].
  rewrite !decayedBy_S, IH. ring.
Qed.

Lemma decayedBy_one_pos n : (0 < decayedBy n 1)%Q.
Proof.
  induction n as [|n IH]; [reflexivity|].
  rewrite decayedBy_S. lra.
Qed.

Lemma iter_sweep_lookup n (m : gmap Z Q) k v' :
  Nat.iter n sweep m !! k = Some v' →
  ∃ v, m !! k = Some v ∧ v' = decayedBy n v ∧ (n ≠ O → (5#100 < v')%Q).
Proof.
  revert v'. induction n as [|n IH]; intros v'; simpl.
  - intros H. by exists v'.
  - rewrite lookup_sweep.
    destruct (Nat.iter n sweep m !! k) as [u|] eqn:E; simpl; [|done].
    intros [-> Hfloor]%decayEntry_Some.
    destruct (IH u eq_refl) as (v & Hv & -> & _).
    exists v. done.
Qed.

Lemma iter_sweep_survives n (m : gmap Z Q) k v :
  m !! k = Some v → (5#100 < decayedBy n v)%Q →
  Nat.iter n sweep m !! k = Some (decayedBy n v).
Proof.
  intros Hv. induction n as [|n IH]; [done|].
  rewrite decayedBy_S. intros Hfloor. simpl.
  rewrite lookup_sweep, IH by lra. simpl.
  apply decayEntry_Some. done.
Qed.

(** X8.  An activation level lasts at most 59 sweeps: from any reachable
    state, 59 applications of the decay sweep leave the ledger empty,
    whatever it held.  The bound is reached: an entry at level 1 is still
    there after 58 sweeps. *)
Theorem levels_last_59_sweeps (g : Graph) (w : World) :
  reachable g w →
  Nat.iter 59 sweep (activations w) = ∅ ∧
  (∀ k, activations w !! k = Some 1%Q →
        Nat.iter 58 sweep (activations w) !! k = Some (decayedBy 58 1)).
Proof.
  intros Hreach.
  destruct (Inv_reachable g w Hreach) as [Hl _].
  split.
  - apply map_empty. intros k.
    destruct (Nat.iter 59 sweep (activations w) !! k) as [v'|] eqn:E; [|done].
    exfalso.
    destruct (iter_sweep_lookup _ _ _ _ E) as (v & Hv & -> & Hfloor).
    specialize (Hfloor ltac:(done)).
    apply Hl in Hv. rewrite decayedBy_scale in Hfloor.
    assert (decayedBy 59 1 < 5#100)%Q as Hsmall by (vm_compute; reflexivity).
    pose proof (decayedBy_one_pos 59). nra.
  - intros k Hk. apply iter_sweep_survives; [done|]. vm_compute. reflexivity.
Qed.

Lemma levels_last_59_sweeps_witness :
  Nat.iter 59 sweep (activations Scenario.wave1) = ∅.
Proof.
  exact (proj1 (levels_last_59_sweeps referenceGraph Scenario.wave1
                  (proj1 (proj2 (proj2 Scenario_reachable))))).
Defined.

(** ** The event loop comes to rest *)

Section Rest.
Variable g : Graph.
Let E : Z := Z.of_nat (length (edges g)).

Lemma hopWeight_pos d : 1 <= hopWeight E d.
Proof.
  unfold hopWeight. subst E.
  destruct (3 <=? d); [lia|]. destruct (2 <=? d); nia.
Qed.

Lemma timerWeight_pos tm : 1 <= timerWeight E tm.
Proof.
  unfold timerWeight. destruct (callback tm) as [s str d| |]; [|lia..].
  pose proof (hopWeight_pos d). lia.
Qed.

Lemma timersWeight_app ts1 ts2 :
  timersWeight E (ts1 ++ ts2) = timersWeight E ts1 + timersWeight E ts2.
Proof. induction ts1 as [|t ts1 IH]; simpl; [done|]. rewrite IH. lia. Qed.

Lemma timersWeight_length ts : Z.of_nat (length ts) <= timersWeight E ts.
Proof.
  induction ts as [|t ts IH]; simpl; [done|].
  pose proof (timerWeight_pos t). lia.
Qed.

Lemma timersWeight_filter p ts :
  timersWeight E (List.filter p ts) <= timersWeight E ts.
Proof.
  induction ts as [|t ts IH]; simpl; [done|].
  pose proof (timerWeight_pos t). destruct (p t); simpl; lia.
Qed.

Lemma timersWeight_remove i tm ts :
  In tm ts → timerId tm = i →
  timersWeight E (List.filter (fun t => negb (timerId t =? i)) ts) + timerWeight E tm
  <= timersWeight E ts.
Proof.
  intros Hin Hid. induction ts as [|t ts IH]; [done|].
  destruct Hin as [->|Hin]; simpl.
  - rewrite Hid, Z.eqb_refl. simpl.
    pose proof (timersWeight_filter (fun t => negb (timerId t =? i)) ts). lia.
  - specialize (IH Hin). pose proof (timerWeight_pos t).
    destruct (negb (timerId t =? i)); simpl; lia.
Qed.

Lemma timersWeight_reschedule tm ts p :
  period tm = Some p →
  timersWeight E (reschedule tm ts) = timersWeight E ts.
Proof.
  intros Hp. unfold reschedule. rewrite Hp.
  induction ts as [|t ts IH]; simpl; [done|]. rewrite IH.
  destruct (timerId t =? timerId tm); done.
Qed.

Lemma reschedule_keeps_interval tm ts p :
  period tm = Some p → In tm ts →
  ∃ t, In t (reschedule tm ts) ∧ timerId t = timerId tm ∧ callback t = callback tm.
Proof.
  intros Hp Hin. unfold reschedule. rewrite Hp.
  eexists. split; [apply in_map_iff; exists tm; split; [reflexivity | exact Hin]|].
  rewrite Z.eqb_refl. done.
Qed.

Lemma spreadActivation_weight s str d x :
  timersWeight E (timers (spreadActivation s str d x)) <=
  timersWeight E (timers x) + (if d <=? 3 then 60 * hopWeight E d else 0).
Proof.
  pose proof (hopWeight_pos d).
  destruct (spreadActivation_cases s str d x) as [[_ ->]|(Hd' & _ & ->)].
  - destruct (d <=? 3); lia.
  - cbn [timers setTimeout]. rewrite timersWeight_app.
    replace (d <=? 3) with true by lia.
    change (timersWeight E [mkTimer (nextTimerId x) (now x + 400 * d) None (SpreadCb s str d)])
      with (60 * hopWeight E d + 0).
    lia.
Qed.

Lemma deliver_weight s str d w e :
  timersWeight E (timers (deliver g s str d w e)) <=
  timersWeight E (timers w) + (if d + 1 <=? 3 then 60 * hopWeight E (d + 1) else 0).
Proof.
  unfold deliver. etransitivity; [apply spreadActivation_weight|].
  destruct (findNode _ _); [destruct (Qgtb _ _)|]; simpl; lia.
Qed.

Lemma fold_deliver_weight s str d es w :
  timersWeight E (timers (fold_left (deliver g s str d) es w)) <=
  timersWeight E (timers w) +
  Z.of_nat (length es) * (if d + 1 <=? 3 then 60 * hopWeight E (d + 1) else 0).
Proof.
  revert w. induction es as [|e es IH]; intros w; [simpl; lia|].
  cbn [fold_left]. etransitivity; [apply IH|].
  pose proof (deliver_weight s str d w e).
  rewrite length_cons, Nat2Z.inj_succ. lia.
Qed.

Lemma connectedEdges_length s : Z.of_nat (length (connectedEdges (edges g) s)) <= E.
Proof.
  subst E. apply inj_le. unfold connectedEdges. apply List.filter_length_le.
Qed.

Lemma spread_weight s str d w :
  1 <= d <= 3 →
  timersWeight E (timers (spreadCallback g s str d w)) + 60 <=
  timersWeight E (timers w) + 60 * hopWeight E d.
Proof.
  intros Hd. unfold spreadCallback.
  pose proof (fold_deliver_weight s str d (connectedEdges (edges g) s) w) as H.
  pose proof (connectedEdges_length s) as Hlen.
  set (n := Z.of_nat (length (connectedEdges (edges g) s))) in *.
  assert (0 <= n) by (subst n; lia).
  assert (d = 1 ∨ d = 2 ∨ d = 3) as [-> | [-> | ->]] by lia;
    unfold hopWeight in *; simpl in *; nia.
Qed.

Lemma fadesWithin_59 w : Inv w → fadesWithin 59 (activations w).
Proof.
  intros [Hl _] k v Hv. apply Hl in Hv.
  rewrite decayedBy_scale.
  assert (decayedBy 59 1 < 5#100)%Q as Hsmall by (vm_compute; reflexivity).
  pose proof (decayedBy_one_pos 59). nra.
Qed.

Lemma fadesWithin_sweep j (m : gmap Z Q) :
  fadesWithin (S j) m → fadesWithin j (sweep m).
Proof.
  intros H k v'. rewrite lookup_sweep.
  destruct (m !! k) as [v|] eqn:Ev; simpl; [|done].
  intros [-> _]%decayEntry_Some.
  rewrite decayedBy_shift. by eapply H.
Qed.

Lemma fadesWithin_0_sweep (m : gmap Z Q) : fadesWithin 0 m → sweep m = ∅.
Proof.
  intros H. apply map_empty. intros k. rewrite lookup_sweep.
  destruct (m !! k) as [v|] eqn:Ev; simpl; [|done].
  apply decayEntry_None. specialize (H k v Ev). simpl in H. lra.
Qed.

(** Every firing lowers the measure: the weight of the pending timers plus
    the number of sweeps that the ledger can still take. *)
Lemma fire_measure tm w j :
  Inv w → In tm (timers w) → fadesWithin j (activations w) →
  ∃ j', fadesWithin j' (activations (fire g tm w)) ∧
        timersWeight E (timers (fire g tm w)) + Z.of_nat j' <
        timersWeight E (timers w) + Z.of_nat j.
Proof.
  intros HI Hin Hj.
  pose proof (Inv_fire g tm w Hin HI) as HI'.
  destruct HI as [Hl Ht].
  pose proof (Ht tm Hin) as Hok. unfold timerOk in Hok.
  destruct (callback tm) as [s str d|i|] eqn:Hcb.
  - destruct Hok as (Hd & _ & Hper).
    exists 59%nat. split; [by apply fadesWithin_59|].
    unfold fire. rewrite Hcb. cbn [runCallback].
    set (w1 := setTimers (reschedule tm) (setNow (Z.max (now w) (fireAt tm)) w)).
    pose proof (spread_weight s str d w1 Hd) as H.
    assert (timers w1 = List.filter (fun t => negb (timerId t =? timerId tm)) (timers w)) as Hw1
      by (subst w1; cbn [timers setTimers setNow]; unfold reschedule; by rewrite Hper).
    rewrite Hw1 in H.
    pose proof (timersWeight_remove (timerId tm) tm (timers w) Hin eq_refl) as Hrm.
    assert (timerWeight E tm = 60 * hopWeight E d) as Hw
      by (unfold timerWeight; by rewrite Hcb).
    lia.
  - destruct Hok as [Hid Hper].
    unfold fire. rewrite Hcb. cbn [runCallback].
    rewrite decayTick_timers.
    cbn [timers activations setTimers setNow].
    pose proof (timersWeight_reschedule tm (timers w) 100 Hper) as Hsame.
    destruct (reschedule_keeps_interval tm (timers w) 100 Hper Hin) as (t & Hint & Htid & Htcb).
    pose proof (timersWeight_remove i t (reschedule tm (timers w)) Hint ltac:(congruence)) as Hrm.
    pose proof (timerWeight_pos t) as Hpos.
    pose proof (timersWeight_filter (fun t => negb (timerId t =? i)) (reschedule tm (timers w))) as Hle.
    destruct j as [|j].
    + exists 0%nat.
      pose proof (fadesWithin_0_sweep _ Hj) as Hempty.
      split.
      * intros k v. rewrite decayTick_activations. cbn [activations setTimers setNow].
        fold (sweep (activations w)). rewrite Hempty, lookup_empty. done.
      * apply sweep_empty_iff in Hempty. rewrite Hempty. lia.
    + exists j. split.
      * intros k v. rewrite decayTick_activations. cbn [activations setTimers setNow].
        apply (fadesWithin_sweep j (activations w) Hj k v).
      * destruct (snd _); lia.
  - exists j. unfold fire. rewrite Hcb. cbn [runCallback]. split; [exact Hj|].
    cbn [timers setPulseWaves setTimers setNow]. unfold reschedule. rewrite Hok.
    pose proof (timersWeight_remove (timerId tm) tm (timers w) Hin eq_refl) as Hrm.
    pose proof (timerWeight_pos tm). lia.
Qed.

Lemma fireMany_S n w : fireMany (S n) g w = fireMany n g (fireNext g w).
Proof. unfold fireMany. apply Nat.iter_succ_r. Qed.

Lemma fireMany_at_rest n w : timers w = [] → fireMany n g w = w.
Proof.
  intros Hw. induction n as [|n IH]; [done|].
  rewrite fireMany_S. unfold fireNext at 1. rewrite Hw. simpl. exact IH.
Qed.

Lemma rest_within n : ∀ w j,
  Inv w → fadesWithin j (activations w) →
  timersWeight E (timers w) + Z.of_nat j <= Z.of_nat n →
  timers (fireMany n g w) = [].
Proof.
  induction n as [|n IH]; intros w j HI Hj Hle.
  - pose proof (timersWeight_length (timers w)).
    destruct (timers w) eqn:Ew; [done|]. simpl in *. lia.
  - rewrite fireMany_S. unfold fireNext.
    destruct (earliest (timers w)) as [tm|] eqn:Ee.
    + destruct (earliest_due _ _ Ee) as [Hin _].
      destruct (fire_measure tm w j HI Hin Hj) as (j' & Hj' & Hlt).
      apply (IH _ j'); [by apply Inv_fire | done | lia].
    + destruct (timers w) as [|t ts] eqn:Ew.
      * rewrite fireMany_at_rest; done.
      * simpl in Ee. destruct (earliest ts); [destruct (_ <? _)|]; done.
Qed.

Lemma reachable_fireMany n w : reachable g w → reachable g (fireMany n g w).
Proof.
  revert w. induction n as [|n IH]; intros w H; [done|].
  rewrite fireMany_S. by apply IH, reachable_fireNext.
Qed.

End Rest.

(** X9.  Left to itself the event loop comes to rest: from any reachable
    state, on any graph, after at most [restFuel] firings no timer is
    pending (every propagation has run out, every decay interval has
    cleared itself, every pulse clearing has fired), and it stays so. *)
Theorem event_loop_comes_to_rest (g : Graph) (w : World) (n : nat) :
  reachable g w → (restFuel g w <= n)%nat →
  timers (fireMany n g w) = [] ∧ reachable g (fireMany n g w).
Proof.
  intros Hreach Hn.
  pose proof (Inv_reachable g w Hreach) as HI.
  split; [|by apply reachable_fireMany].
  apply (rest_within g n w 59%nat HI (fadesWithin_59 w HI)).
  unfold restFuel in Hn.
  pose proof (timersWeight_length g (timers w)). lia.
Qed.

Lemma event_loop_comes_to_rest_witness :
  timers (fireMany (restFuel referenceGraph Scenario.clicked) referenceGraph Scenario.clicked)
  = [].
Proof.
  exact (proj1 (event_loop_comes_to_rest referenceGraph Scenario.clicked
                  (restFuel referenceGraph Scenario.clicked)
                  (reachable_clicked referenceGraph 0) (le_n _))).
Defined.

(** ** Rest does not mean an empty ledger *)

Lemma reachable_clickAt g i w t :
  reachable g w →
  (now (runBefore 1000 g t w) <=? t) &&
  forallb (fun u => t <=? fireAt u) (timers (runBefore 1000 g t w)) = true →
  reachable g (clickAt g i w t).
Proof.
  intros Hw [Hnow Hall]%andb_true_iff.
  unfold clickAt. apply reachable_activate.
  eapply reachable_step; [by apply reachable_runBefore|].
  apply step_wait. lia.
Qed.

Lemma fourClicks_reachable : reachable referenceGraph fourClicksAtRest.
Proof.
  apply reachable_runBefore.
  change fourClicks with
    (clickAt referenceGraph 0
       (clickAt referenceGraph 0
          (clickAt referenceGraph 0
             (clickAt referenceGraph 0 initial 0) 1000) 2000) 3000).
  refine (reachable_clickAt _ _ _ _ _ _); [|vm_compute; reflexivity].
  refine (reachable_clickAt _ _ _ _ _ _); [|vm_compute; reflexivity].
  refine (reachable_clickAt _ _ _ _ _ _); [|vm_compute; reflexivity].
  refine (reachable_clickAt _ _ _ _ _ _); [|vm_compute; reflexivity].
  apply rtc_refl.
Qed.

(** X10.  The event loop can come to rest with activation left in the
    ledger.  After four clicks on node 0 of the reference graph, one
    second apart, the four decay intervals empty the ledger and clear
    themselves before the last propagation wave arrives; that wave then
    sets all six nodes to 0.216, and with no timer pending nothing fades
    them.  So "no timer pending" does not imply "ledger empty". *)
Theorem rest_with_activation_left :
  reachable referenceGraph fourClicksAtRest ∧
  timers fourClicksAtRest = [] ∧
  List.map (fun k => activations fourClicksAtRest !! k) [0; 1; 2; 3; 4; 5] =
    List.repeat (Some (216#1000)%Q) 6 ∧
  ¬ (∀ w, reachable referenceGraph w → timers w = [] → activations w = ∅).
Proof.
  pose proof fourClicks_reachable as Hr.
  assert (timers fourClicksAtRest = []) as Ht by (vm_compute; reflexivity).
  split; [exact Hr|]. split; [exact Ht|]. split; [vm_compute; reflexivity|].
  intros H. specialize (H fourClicksAtRest Hr Ht).
  apply (f_equal (λ m : gmap Z Q, m !! 0)) in H. vm_compute in H. discriminate.
Qed.

(** ** What is drawn *)

Lemma lit_true a : View.lit a = true ↔ (1#10 < a)%Q.
Proof. apply Qgtb_true. Qed.

Lemma lit_false a : View.lit a = false ↔ (a <= 1#10)%Q.
Proof. apply Qgtb_false. Qed.

Lemma lit_max a b : View.lit (Qmax a b) = View.lit a || View.lit b.
Proof.
  destruct (View.lit a) eqn:Ea, (View.lit b) eqn:Eb; simpl;
    rewrite ?lit_true, ?lit_false in *.
  - apply Q.max_lt_iff. by left.
  - apply Q.max_lt_iff. by left.
  - apply Q.max_lt_iff. by right.
  - by apply Q.max_lub.
Qed.

(** X11.  In every reachable state the values that [Node3D] derives from a
    node's activation stay in range: the activation is between 0 and 1,
    the glow opacity is at most 0.4, the glow scale is between 1.5 and 3,
    the emissive intensity between 0.1 and 1.3, and the pulse scale
    between 0.85 and 1.15 for every value of the sine; a node that is
    shown as activated has a ledger entry. *)
Theorem node_view_ranges (g : Graph) (w : World) (node : EngramNode) :
  reachable g w →
  let a := View.activationOf (activations w) node in
  (0 <= a <= 1)%Q ∧
  (0 <= View.glowOpacity a <= 4#10)%Q ∧
  (15#10 <= View.glowScale a <= 3)%Q ∧
  (1#10 <= View.emissiveIntensity a <= 13#10)%Q ∧
  (∀ sin4t, (-(1) <= sin4t <= 1)%Q →
            (85#100 <= View.pulseScale a sin4t <= 115#100)%Q) ∧
  (View.lit a = true → is_Some (activations w !! id node)).
Proof.
  intros Hreach a.
  pose proof (Inv_reachable g w Hreach) as HI.
  pose proof (level_range w (id node) HI) as Hrange.
  fold (View.activationOf (activations w) node) in Hrange. fold a in Hrange.
  split; [exact Hrange|].
  unfold View.glowOpacity, View.glowScale, View.emissiveIntensity, View.pulseScale.
  split; [lra|]. split; [lra|]. split; [|split].
  - destruct (View.lit a); lra.
  - intros sin4t Hs. destruct (View.lit a); [nra | lra].
  - intros Hlit. apply lit_true in Hlit.
    subst a. unfold View.activationOf, Ledger.levelOf in Hlit.
    destruct (activations w !! id node); [done | simpl in Hlit; lra].
Qed.

Lemma node_view_ranges_witness :
  (0 <= View.activationOf (activations Scenario.clicked) (mkNode 0 (0, 0, 0)%Q "" query) <= 1)%Q.
Proof.
  exact (proj1 (node_view_ranges referenceGraph Scenario.clicked
                  (mkNode 0 (0, 0, 0)%Q "" query)
                  (reachable_clicked referenceGraph 0))).
Defined.

(** X12.  [Edge3D] draws an edge exactly when both endpoints are nodes.
    A drawn edge is highlighted (gold, width 2) exactly when at least one
    of its two endpoints is shown as activated, and in every reachable
    state its opacity is 0.15 when it is not highlighted and between 0.64
    and 1 when it is. *)
Theorem edge_view (g : Graph) (w : World) (edge : EngramEdge) :
  reachable g w →
  let a := Ledger.levelOf (activations w) (source edge) in
  let b := Ledger.levelOf (activations w) (target edge) in
  (View.Edge3D edge (nodes g) (activations w) = None ↔
   edgeResolves (nodes g) edge = false) ∧
  (∀ line, View.Edge3D edge (nodes g) (activations w) = Some line →
     (View.color line = "#C5A059"%string ↔ View.lit a || View.lit b = true) ∧
     (View.lineWidth line = 2 ↔ View.lit a || View.lit b = true) ∧
     (View.lit a || View.lit b = false → View.opacity line = (15#100)%Q) ∧
     (View.lit a || View.lit b = true → (64#100 < View.opacity line <= 1)%Q)).
Proof.
  intros Hreach a b.
  pose proof (Inv_reachable g w Hreach) as HI.
  pose proof (level_range w (source edge) HI) as Ha.
  pose proof (level_range w (target edge) HI) as Hb.
  fold a in Ha. fold b in Hb.
  unfold View.Edge3D, edgeResolves. fold a b.
  destruct (findNode (nodes g) (source edge)) as [sn|];
    [destruct (findNode (nodes g) (target edge)) as [tn|]|].
  2, 3: split; [done | intros line; discriminate].
  split; [done|]. intros line [= <-]. cbn [View.color View.lineWidth View.opacity].
  rewrite lit_max.
  destruct (View.lit a || View.lit b) eqn:Elit.
  - split; [done|]. split; [done|]. split; [done|]. intros _.
    rewrite <- lit_max in Elit. apply lit_true in Elit.
    assert (Qmax a b <= 1)%Q by (apply Q.max_lub; lra). lra.
  - split; [done|]. split; [done|]. split; [done|]. done.
Qed.

Lemma edge_view_witness :
  View.Edge3D (mkEdge 0 7) (nodes referenceGraph) (activations Scenario.clicked) = None ↔
  edgeResolves (nodes referenceGraph) (mkEdge 0 7) = false.
Proof.
  exact (proj1 (edge_view referenceGraph Scenario.clicked (mkEdge 0 7)
                  (reachable_clicked referenceGraph 0))).
Defined.

(** ** The fading of a pulse wave *)

Lemma waveFrame_hidden startTime wv t :
  View.visible wv = false → View.waveFrame startTime wv t = wv.
Proof. intros H. unfold View.waveFrame. by rewrite H. Qed.

Lemma waveFrames_hidden startTime wv ts :
  View.visible wv = false → View.waveFrames startTime wv ts = wv.
Proof.
  unfold View.waveFrames. induction ts as [|t ts IH]; intros H; simpl; [done|].
  rewrite waveFrame_hidden by done. by apply IH.
Qed.

Lemma waveFrame_cases startTime wv t :
  (View.visible (View.waveFrame startTime wv t) = true ∧
   View.visible wv = true ∧ (t < startTime + 2)%Q ∧
   View.waveFrame startTime wv t =
     View.mkWave true ((t - startTime) * 3)%Q
                 (Qmax 0 (1 - (t - startTime) * (5#10)) * (3#10))%Q) ∨
  (View.visible (View.waveFrame startTime wv t) = false ∧
   (View.visible wv = false ∨ (startTime + 2 <= t)%Q) ∧
   View.scale (View.waveFrame startTime wv t) = View.scale wv ∧
   View.materialOpacity (View.waveFrame startTime wv t) = View.materialOpacity wv).
Proof.
  unfold View.waveFrame.
  destruct (View.visible wv) eqn:Ev; [|right; rewrite Ev; tauto].
  destruct (Qle_bool (Qmax 0 (1 - (t - startTime) * (5#10))) 0) eqn:Eo.
  - right. apply Qle_bool_iff, Q.max_lub_iff in Eo as [_ Eo].
    simpl. repeat split; try done. right. lra.
  - left. simpl. repeat split; try done.
    apply Qnot_le_lt. intros Hle.
    assert (Qle_bool (Qmax 0 (1 - (t - startTime) * (5#10))) 0 = true) as Habs.
    { apply Qle_bool_iff, Q.max_lub; lra. }
    congruence.
Qed.

(** X13.  A pulse wave fades for good: once a frame arrives two seconds
    or more after its start time, the wave is hidden, and it stays hidden
    whatever frames follow (also frames with an earlier clock reading). *)
Theorem wave_hidden_for_good (startTime : Q) (wv : View.Wave) (ts : list Q) (t : Q) :
  In t ts → (startTime + 2 <= t)%Q →
  View.visible (View.waveFrames startTime wv ts) = false.
Proof.
  revert wv. induction ts as [|t' ts IH]; intros wv Hin Hlate; [done|].
  unfold View.waveFrames. cbn [fold_left].
  fold (View.waveFrames startTime (View.waveFrame startTime wv t') ts).
  destruct Hin as [->|Hin]; [|by apply IH].
  destruct (waveFrame_cases startTime wv t) as [(_ & _ & Hlt & _)|(Hv & _)]; [lra|].
  by rewrite waveFrames_hidden.
Qed.

Lemma wave_hidden_for_good_witness :
  View.visible (View.waveFrames 1 View.newWave [2; 3; (5#2)]%Q) = false.
Proof.
  exact (wave_hidden_for_good 1 View.newWave [2; 3; (5#2)]%Q 3
           (or_intror (or_introl eq_refl)) ltac:(discriminate)).
Defined.

(** X14.  While a pulse wave is shown, after a frame at clock reading [t]
    no earlier than its start: less than two seconds have passed, the
    scale written to the mesh is three times the elapsed time and below 6,
    and the material opacity is [(1 - elapsed / 2) * 0.3], above 0 and at
    most 0.3. *)
Theorem wave_while_shown (startTime : Q) (wv : View.Wave) (t : Q) :
  (startTime <= t)%Q →
  View.visible (View.waveFrame startTime wv t) = true →
  View.visible wv = true ∧
  (t - startTime < 2)%Q ∧
  View.scale (View.waveFrame startTime wv t) = ((t - startTime) * 3)%Q ∧
  (0 <= View.scale (View.waveFrame startTime wv t) < 6)%Q ∧
  (View.materialOpacity (View.waveFrame startTime wv t) ==
     (1 - (t - startTime) * (5#10)) * (3#10))%Q ∧
  (0 < View.materialOpacity (View.waveFrame startTime wv t) <= 3#10)%Q.
Proof.
  intros Hle Hvis.
  destruct (waveFrame_cases startTime wv t) as [(_ & Hv & Hlt & ->)|(Hv & _)];
    [|congruence].
  cbn [View.scale View.materialOpacity].
  assert (Qmax 0 (1 - (t - startTime) * (5#10)) == 1 - (t - startTime) * (5#10))%Q as Hmax
    by (apply Q.max_r; lra).
  split; [done|]. split; [lra|]. split; [done|]. split; [lra|].
  rewrite Hmax. split; [reflexivity | lra].
Qed.

Lemma wave_while_shown_witness :
  (1 - 0 < 2)%Q.
Proof.
  exact (proj1 (proj2 (wave_while_shown 0 View.newWave 1
                         ltac:(discriminate) eq_refl))).
Defined.

(** ** A single click always fades out *)

Lemma fold_deliver_new g s str d es w t :
  In t (timers (fold_left (deliver g s str d) es w)) →
  In t (timers w) ∨
  (∃ e, callback t = SpreadCb (neighborOf s e) (str * (6#10))%Q (d + 1)) ∧
  fireAt t = now w + 400 * (d + 1).
Proof.
  revert w. induction es as [|e es IH]; intros w; simpl; [by left|].
  intros [Hin|[Hcb Hdue]]%IH.
  - unfold deliver in Hin.
    apply spreadActivation_timers_in in Hin as [Hin|(-> & _)].
    + left. destruct (findNode _ _); [destruct (Qgtb _ _)|]; done.
    + right. simpl. split; [by exists e|].
      destruct (findNode _ _); [destruct (Qgtb _ _)|]; done.
  - right. by rewrite deliver_now in Hdue.
Qed.



Lemma spreadCallback_now g s str d w : now (spreadCallback g s str d w) = now w.
Proof.
  apply (spreadCallback_induction (λ x, now x = now w)); [done|].
  intros x e _ Hx. by rewrite deliver_now.
Qed.

Lemma decayTick_now i w : now (decayTick i w) = now w.
Proof.
  unfold decayTick. destruct (Ledger.decayAll _) as [newMap []]; done.
Qed.






(** ** Late timers *)

Lemma handleActivate_now g i w : now (handleActivate g i w) = now w.
Proof.
  unfold handleActivate. destruct (findNode (nodes g) i); [|done].
  unfold setTimeout, setInterval. cbn [now]. by rewrite spreadActivation_now.
Qed.

Lemma fire_now g tm w : now (fire g tm w) = Z.max (now w) (fireAt tm).
Proof.
  unfold fire. destruct (callback tm); cbn [runCallback].
  - by rewrite spreadCallback_now.
  - by rewrite decayTick_now.
  - done.
Qed.

Lemma fire_pulseWaves_decay g tm w j :
  callback tm = DecayCb j → pulseWaves (fire g tm w) = pulseWaves w.
Proof. intros Hcb. unfold fire. rewrite Hcb. cbn [runCallback]. by rewrite decayTick_pulseWaves. Qed.

Lemma fire_keeps_other g tm w t :
  timerOk tm → In t (timers w) → timerId t ≠ timerId tm →
  In t (timers (fire g tm w)).
Proof.
  intros Hok Ht Hne.
  assert (In t (reschedule tm (timers w))) as Hres.
  { unfold reschedule. destruct (period tm) as [p|].
    - apply in_map_iff. exists t. split; [|done].
      destruct (timerId t =? timerId tm) eqn:E; [lia | done].
    - apply filter_In. split; [done|]. apply negb_true_iff. lia. }
  unfold fire, timerOk in *.
  destruct (callback tm) as [s str d|j|] eqn:Hcb; cbn [runCallback].
  - unfold spreadCallback. by apply fold_deliver_timers_keep.
  - destruct Hok as [Hid _].
    rewrite decayTick_timers. cbn [timers activations setTimers setNow].
    destruct (snd _); [done|].
    apply filter_In. split; [done|]. apply negb_true_iff. lia.
  - done.
Qed.

Lemma distinct_ids (ts : list Timer) (a b : Timer) :
  NoDup (List.map timerId ts) → In a ts → In b ts → a ≠ b → timerId a ≠ timerId b.
Proof. intros Hnd Ha Hb Hne Heq. apply Hne. by eapply (NoDup_map_eq timerId ts). Qed.

(** Where a timer that is pending after a firing comes from: it was
    pending before, or it is the interval that fired, moved one period
    ahead, or it is a propagation that the callback registered. *)
Lemma fire_timers_cases g tm w t :
  NoDup (List.map timerId (timers w)) → In tm (timers w) →
  In t (timers (fire g tm w)) →
  (In t (timers w) ∧ timerId t ≠ timerId tm) ∨
  (∃ p, period tm = Some p ∧ callback t = callback tm ∧ fireAt t = fireAt tm + p) ∨
  (∃ s str d, callback tm = SpreadCb s str d ∧
              (∃ e, callback t = SpreadCb (neighborOf s e) (str * (6#10))%Q (d + 1)) ∧
              fireAt t = Z.max (now w) (fireAt tm) + 400 * (d + 1)).
Proof.
  intros Hnd Hin Ht.
  assert (∀ t, In t (reschedule tm (timers w)) →
            (In t (timers w) ∧ timerId t ≠ timerId tm) ∨
            (∃ p, period tm = Some p ∧ callback t = callback tm ∧
                  fireAt t = fireAt tm + p)) as Hres.
  { clear t Ht. intros t. unfold reschedule. destruct (period tm) as [p|] eqn:Hp.
    - intros (t0 & <- & Ht0)%in_map_iff.
      destruct (timerId t0 =? timerId tm) eqn:E.
      + right. exists p. simpl. split; [done|]. split; [|done].
        assert (t0 = tm) as ->; [|done].
        eapply (NoDup_map_eq timerId (timers w)); try done. lia.
      + left. split; [done | lia].
    - intros [Ht0 Hid]%filter_In. left. split; [done|].
      apply negb_true_iff in Hid. lia. }
  unfold fire in Ht.
  destruct (callback tm) as [s str d|j|] eqn:Hcb; cbn [runCallback] in Ht.
  - unfold spreadCallback in Ht.
    apply fold_deliver_new in Ht as [Ht|[He Hdue]].
    + destruct (Hres t Ht) as [H|H]; [by left | right; by left].
    + right; right. exists s, str, d. done.
  - rewrite decayTick_timers in Ht. cbn [timers activations setTimers setNow] in Ht.
    destruct (snd _).
    + destruct (Hres t Ht) as [H|H]; [by left | right; by left].
    + apply filter_In in Ht as [Ht _].
      destruct (Hres t Ht) as [H|H]; [by left | right; by left].
  - destruct (Hres t Ht) as [H|H]; [by left | right; by left].
Qed.

Lemma remainingDelay_nonneg d : 0 <= remainingDelay d.
Proof. unfold remainingDelay. destruct (d <=? 1); [lia|]. destruct (d <=? 2); lia. Qed.

Lemma remainingDelay_step d :
  1 <= d → d + 1 <= 3 → 400 * (d + 1) + remainingDelay (d + 1) = remainingDelay d.
Proof.
  intros H1 H3. assert (d = 1 ∨ d = 2) as [-> | ->] by lia; reflexivity.
Qed.

Lemma idle_step g w w' : idle g w w' → step g w w'.
Proof. destruct 1; by constructor. Qed.

Lemma idle_reachable g w w' : reachable g w → rtc (idle g) w w' → reachable g w'.
Proof.
  intros Hw Hrun. eapply rtc_trans; [exact Hw|].
  eapply rtc_subrel; [|exact Hrun]. intros x y. apply idle_step.
Qed.


Lemma idleWithin_stepWithin L g w w' : rtc (idleWithin L g) w w' → rtc (stepWithin L g) w w'.
Proof. apply rtc_subrel. intros x y [H Hl]. split; [by apply idle_step | done]. Qed.

Lemma stepWithin_reachable L g w : rtc (stepWithin L g) initial w → reachable g w.
Proof. apply rtc_subrel. by intros x y [H _]. Qed.


(** A timer with a period is a decay interval of period 100. *)
Lemma timerOk_period tm p :
  timerOk tm → period tm = Some p → p = 100 ∧ ∃ j, callback tm = DecayCb j.
Proof.
  unfold timerOk. destruct (callback tm) as [s str d|j|].
  - intros (_ & _ & Hper). congruence.
  - intros [_ Hper] Hp. split; [congruence | by exists j].
  - congruence.
Qed.

(** *** Due times after a single click *)





(** *** An event loop that runs late *)

Lemma notOverdue_step g L w w' :
  0 <= L → reachable g w → notOverdue L w →
  step g w w' → lagWithin L w w' → notOverdue L w'.
Proof.
  intros HL Hreach Hnow Hstep Hlag.
  destruct (IdsOk_reachable g w Hreach) as [_ Hnd].
  destruct (Inv_reachable g w Hreach) as [_ Hok].
  destruct Hstep as [i w|time w|t w _|tm w Hin].
  - destruct (findNode (nodes g) i) as [node|] eqn:E;
      [|rewrite handleActivate_unknown by done; done].
    destruct (handleActivate_timers g i w node E) as (a & b & c & Ht).
    unfold notOverdue. rewrite Ht, handleActivate_now.
    intros u [Hold|[<-|[<-|[<-|[]]]]]%in_app_iff; [by apply Hnow | simpl; lia ..].
  - exact Hnow.
  - exact Hlag.
  - intros u Hu.
    destruct (fire_timers_cases g tm w u Hnd Hin Hu)
      as [[Hold _]|[(p & Hp & _ & Hdue)|(s & str & d & Hcb & _ & Hdue)]].
    + by apply Hlag.
    + destruct (timerOk_period tm p (Hok tm Hin) Hp) as [-> _].
      specialize (Hlag tm Hin). lia.
    + pose proof (Hok tm Hin) as Hoktm. unfold timerOk in Hoktm.
      rewrite Hcb in Hoktm. rewrite fire_now. lia.
Qed.

Lemma fireNextLate_run g L w :
  0 <= L → reachable g w → notOverdue L w →
  rtc (idleWithin L g) w (fireNextLate L g w) ∧
  reachable g (fireNextLate L g w) ∧ notOverdue L (fireNextLate L g w).
Proof.
  intros HL Hreach Hnow. unfold fireNextLate.
  destruct (earliest (timers w)) as [tm|] eqn:E; [|by split; [apply rtc_refl|]].
  destruct (earliest_due _ _ E) as [Hin Hmin].
  set (T := Z.max (now w) (fireAt tm + L)).
  assert (lagWithin L w (setNow T w)) as Hlag1.
  { intros u Hu. cbn [now setNow]. specialize (Hnow u Hu). specialize (Hmin u Hu). lia. }
  assert (lagWithin L (setNow T w) (fire g tm (setNow T w))) as Hlag2.
  { intros u Hu. rewrite fire_now. cbn [now fireAt timers setNow] in *.
    specialize (Hnow u Hu). specialize (Hmin u Hu). lia. }
  assert (step g w (setNow T w)) as Hs1 by (apply step_wait; lia).
  assert (step g (setNow T w) (fire g tm (setNow T w))) as Hs2 by (by apply step_fire).
  assert (reachable g (setNow T w)) as Hr1 by (by eapply reachable_step).
  assert (notOverdue L (setNow T w)) as Hn1 by (by eapply (notOverdue_step g L w)).
  split; [|split].
  - apply (rtc_l _ _ (setNow T w)); [|apply rtc_once].
    + split; [apply idle_wait; lia | exact Hlag1].
    + split; [by apply idle_fire | exact Hlag2].
  - by eapply reachable_step.
  - by eapply (notOverdue_step g L (setNow T w)).
Qed.

Lemma lateRun_run L n :
  0 <= L →
  rtc (idleWithin L referenceGraph) (handleActivate referenceGraph 0 initial) (lateRun L n) ∧
  reachable referenceGraph (lateRun L n) ∧ notOverdue L (lateRun L n).
Proof.
  intros HL. induction n as [|n (Hrun & Hreach & Hnow)].
  - split; [apply rtc_refl|]. split; [apply reachable_clicked|].
    intros u Hu. vm_compute in Hu.
    destruct Hu as [<-|[<-|[<-|[]]]]; cbn [fireAt]; change (now (lateRun L 0)) with 0; lia.
  - change (lateRun L (S n)) with (fireNextLate L referenceGraph (lateRun L n)).
    destruct (fireNextLate_run referenceGraph L _ HL Hreach Hnow) as (H1 & H2 & H3).
    split; [by eapply rtc_trans | done].
Qed.

Lemma lateRun_stepWithin L n :
  0 <= L → rtc (stepWithin L referenceGraph) initial (lateRun L n).
Proof.
  intros HL. eapply rtc_l.
  - split; [apply (step_activate referenceGraph 0 initial) | intros u []].
  - apply idleWithin_stepWithin. by apply lateRun_run.
Qed.


Lemma notOverdue_stepWithin g L w :
  0 <= L → rtc (stepWithin L g) initial w → notOverdue L w.
Proof.
  intros HL Hrun.
  eapply (rtc_ind_r (λ x, reachable g x ∧ notOverdue L x)); [| |exact Hrun].
  - split; [apply rtc_refl | intros u []].
  - intros y z _ [Hstep Hlag] [Hy IH].
    split; [by eapply reachable_step | by eapply (notOverdue_step g L y z)].
Qed.

(** The bound on the lateness of the timers does not restrict the clicks:
    a click is possible in every state of such a run. *)
Lemma stepWithin_activate g L i w :
  0 <= L → rtc (stepWithin L g) initial w → stepWithin L g w (handleActivate g i w).
Proof.
  intros HL Hrun. split; [apply step_activate|].
  intros u Hu. rewrite handleActivate_now. by apply (notOverdue_stepWithin g L w).
Qed.

(** *** Pulses and late timers *)

Lemma pulseInv_step g L w w' :
  0 <= L < 200 → reachable g w →
  step g w w' → lagWithin L w w' →
  pulseInv L w → pulseInv L w'.
Proof.
  intros HL Hreach Hstep Hlag (Hcov & Hpu).
  destruct (IdsOk_reachable g w Hreach) as [_ Hnd].
  pose proof (Inv_reachable g w Hreach) as HI.
  destruct Hstep as [i w|time w|t w _|tm w Hin].
  - destruct (findNode (nodes g) i) as [node|] eqn:E;
      [|rewrite handleActivate_unknown by done; done].
    destruct (handleActivate_timers g i w node E) as (a & b & c & Ht).
    unfold pulseInv. rewrite Ht.
    split.
    + intros t s str d [Hold|Hnew]%in_app_iff Hcbt.
      * destruct (Hcov t s str d Hold Hcbt) as (tc & Hintc & Hrest).
        exists tc. split; [apply in_app_iff; by left | done].
      * exists (mkTimer c (now w + 3000) None ClearPulsesCb).
        split; [apply in_app_iff; right; simpl; tauto|]. split; [done|].
        destruct Hnew as [<-|[<-|[<-|[]]]]; simpl in Hcbt; try done.
        injection Hcbt as _ _ Hd1. subst d.
        change (remainingDelay 1) with 2000. cbn [fireAt]. lia.
    + intros _. exists (mkTimer c (now w + 3000) None ClearPulsesCb).
      split; [apply in_app_iff; right; simpl; tauto | done].
  - split; [exact Hcov | exact Hpu].
  - split; [exact Hcov | exact Hpu].
  - pose proof (Inv_fire g tm w Hin HI) as [_ Ht'].
    destruct HI as [_ Ht].
    pose proof (Ht tm Hin) as Hok.
    assert (∀ t, In t (timers w) → Z.max (now w) (fireAt tm) <= fireAt t + L) as Hlag'.
    { intros t Hint. specialize (Hlag t Hint). by rewrite fire_now in Hlag. }
    assert (∀ t, In t (timers w) → callback t ≠ callback tm → In t (timers (fire g tm w)))
      as Hkeep.
    { intros t Hint Hne. apply fire_keeps_other; [done..|].
      apply (distinct_ids (timers w)); try done. intros ->. done. }
    (* a pulse clearing that covers a pending propagation is not the timer
       that fires *)
    assert (∀ t s str d tc, In t (timers w) → callback t = SpreadCb s str d →
              timerId t ≠ timerId tm →
              In tc (timers w) → callback tc = ClearPulsesCb →
              fireAt t + remainingDelay d + (4 - d) * L < fireAt tc →
              In tc (timers (fire g tm w))) as Hcover.
    { intros t s str d tc Hint Hcbt Hne Hintc Hcbc Hlt.
      apply fire_keeps_other; [done..|]. intros Heq.
      assert (tc = tm) as -> by (by eapply (NoDup_map_eq timerId (timers w))).
      pose proof (Ht t Hint) as Hokt. unfold timerOk in Hokt. rewrite Hcbt in Hokt.
      destruct Hokt as (Hd & _).
      pose proof (Hlag' t Hint). pose proof (remainingDelay_nonneg d). nia. }
    split.
    + intros t s' str' d' Hint Hcbt.
      pose proof (Ht' t Hint) as Hokt. unfold timerOk in Hokt. rewrite Hcbt in Hokt.
      destruct Hokt as (Hd' & _ & Hpert).
      destruct (fire_timers_cases g tm w t Hnd Hin Hint)
        as [[Hold Hne]|[(p & Hp & Hsame & _)|(s & str & d & Hcb & [e He] & Hdue)]].
      * destruct (Hcov t s' str' d' Hold Hcbt) as (tc & Hintc & Hcbc & Hlt).
        exists tc. split; [|done]. by eapply (Hcover t s' str' d' tc).
      * exfalso. destruct (timerOk_period tm p Hok Hp) as [_ [j Hj]]. congruence.
      * rewrite He in Hcbt. injection Hcbt as _ _ <-.
        unfold timerOk in Hok. rewrite Hcb in Hok. destruct Hok as (Hd & _).
        destruct (Hcov tm s str d Hin Hcb) as (tc & Hintc & Hcbc & Hlt).
        exists tc. split; [|split; [done|]].
        -- apply Hkeep; [done|]. congruence.
        -- rewrite Hdue.
           pose proof (remainingDelay_step d ltac:(lia) ltac:(lia)).
           pose proof (Hlag' tm Hin). lia.
    + intros Hne.
      destruct (callback tm) as [s str d|j|] eqn:Hcb.
      * destruct (Hcov tm s str d Hin Hcb) as (tc & Hintc & Hcbc & Hlt).
        exists tc. split; [|done]. apply Hkeep; [done|]. congruence.
      * rewrite (fire_pulseWaves_decay g tm w j Hcb) in Hne.
        destruct (Hpu Hne) as (tc & Hintc & Hcbc).
        exists tc. split; [|done]. apply Hkeep; [done|]. congruence.
      * exfalso. apply Hne. unfold fire. rewrite Hcb. done.
Qed.

Lemma pulseInv_stepWithin g L w :
  0 <= L < 200 → rtc (stepWithin L g) initial w → pulseInv L w.
Proof.
  intros HL Hrun.
  eapply (rtc_ind_r (λ x, reachable g x ∧ pulseInv L x)); [| |exact Hrun].
  - split; [apply rtc_refl|]. split; [intros t ? ? ? []|]. intros H. done.
  - intros y z _ [Hstep Hlag] [Hy IH].
    split; [by eapply reachable_step | by eapply (pulseInv_step g L y z)].
Qed.

(** X17.  Pulses outlive the timers only when the event loop is late.  If
    every timer is served less than 200 ms late (in any order), then in
    every state: a non-empty pulse list has a pulse clearing pending;
    every pending propagation of depth [d] will have run out, with its
    descendants and their lateness, before some pending pulse clearing is
    due; and when no timer is pending the pulse list is empty.  The bound
    is needed: the propagation is re-armed from the time at which each hop
    actually ran, the pulse clearing is armed once per click, and in the
    run of the reference graph in which every timer is served 350 ms late
    the third hops fire after the pulse clearing and leave 13 pulses with
    no timer pending. *)
Theorem pulses_leak_only_when_late (g : Graph) (L : Z) (w : World) :
  0 <= L < 200 →
  rtc (stepWithin L g) initial w →
  ((pulseWaves w ≠ [] → ∃ tc, In tc (timers w) ∧ callback tc = ClearPulsesCb) ∧
   (∀ t s str d, In t (timers w) → callback t = SpreadCb s str d →
      ∃ tc, In tc (timers w) ∧ callback tc = ClearPulsesCb ∧
            fireAt t + remainingDelay d + (4 - d) * L < fireAt tc) ∧
   (timers w = [] → pulseWaves w = [])) ∧
  (rtc (stepWithin 350 referenceGraph) initial (lateRun 350 80) ∧
   reachable referenceGraph (lateRun 350 80) ∧
   timers (lateRun 350 80) = [] ∧
   length (pulseWaves (lateRun 350 80)) = 13%nat).
Proof.
  intros HL Hrun.
  destruct (pulseInv_stepWithin g L w HL Hrun) as (Hcov & Hpu).
  split.
  - split; [exact Hpu|]. split; [exact Hcov|].
    intros Hrest. destruct (pulseWaves w) as [|p ps] eqn:Ep; [done|].
    destruct (Hpu ltac:(done)) as (tc & Hin & _). rewrite Hrest in Hin. done.
  - pose proof (lateRun_stepWithin 350 80 ltac:(lia)) as H350.
    split; [exact H350|].
    split; [exact (stepWithin_reachable _ _ _ H350)|].
    split; vm_compute; reflexivity.
Qed.

Lemma pulses_leak_only_when_late_witness :
  pulseWaves (lateRun 100 80) = [].
Proof.
  exact (proj2 (proj2 (proj1
           (pulses_leak_only_when_late referenceGraph 100 (lateRun 100 80)
              ltac:(lia) (lateRun_stepWithin 100 80 ltac:(lia)))))
           ltac:(vm_compute; reflexivity)).
Defined.
